(** * Fileverse: the crop-selection geometry of [ImageCropTool]

    A shallow embedding of the pointer-driven crop rectangle of
    [src/js/image-tools.js] ([handleImageSelect], [onMouseDown],
    [onMouseMove], [onMouseUp], [startDrag], [updateDrag]) and the
    properties the specification states about it.

    Numbers.  The JavaScript fields are IEEE binary64 numbers.  A finite
    double is a rational, so the fields are rationals [Q]; every [+],
    [-], [*] and [/] of the source delivers the double nearest to the
    exact result, written [fl].  Comparisons, [Math.min], [Math.max] and
    [Math.abs] are exact.  NaN, the infinities and the sign of zero are
    outside the model: no number of this program comes near the
    overflow threshold.

    Rendering.  [updateCropPreview] and [drawCropOverlay] only read the
    four rectangle fields and draw; they are not part of the model.

    The second half of the file covers the size computations and the
    list handling of the other tools of the same source file:
    [ImageTools.resizeImageForPreview], [ImageResizeTool] and
    [ImageToPdfTool]. *)

From Stdlib Require Import QArith Qminmax Qabs Qround Qpower Lqa ZArith Lia
  List Bool.
From Stdlib Require String Permutation.
From Stdlib Require PrimFloat FloatOps SpecFloat Uint63.
Import String.StringSyntax.
Import ListNotations.
Delimit Scope string_scope with string.

#[local] Open Scope Q_scope.

(** ** Comparisons and [Math.min] / [Math.max] / [Math.abs] *)

(** The JavaScript test [a < b] on numbers. *)
Definition Qltb (a b : Q) : bool :=
  match a ?= b with
  | Lt => true
  | _ => false
  end.

(** The JavaScript test [a > b]. *)
Definition Qgtb (a b : Q) : bool := Qltb b a.

Infix "<?" := Qltb (at level 70, no associativity) : Q_scope.
Infix ">?" := Qgtb (at level 70, no associativity) : Q_scope.

(** ** Binary64 arithmetic *)

Definition pow2 (k : Z) : Q := 2 ^ k.

(** The binade of a positive number: the [k] with
    [2^k <= q < 2^(k+1)]. *)
Definition floorLog2 (q : Q) : Z :=
  let k := (Z.log2 (Qnum q) - Z.log2 (Zpos (Qden q)))%Z in
  if Qle_bool (pow2 k) q then k else (k - 1)%Z.

(** The exponent of the unit in the last place of [q]: 53 significant
    bits, and never below the subnormal spacing [2^-1074]. *)
Definition ulpExponent (q : Q) : Z :=
  Z.max (floorLog2 (Qabs q) - 52) (-1074).

(** The nearest integer, ties to the even one. *)
Definition roundHalfEven (k : Q) : Z :=
  let f := Qfloor k in
  match Qcompare (k - inject_Z f) (1 # 2) with
  | Lt => f
  | Gt => (f + 1)%Z
  | Eq => if Z.even f then f else (f + 1)%Z
  end.

Definition isInteger (k : Q) : bool := Qeq_bool k (inject_Z (Qfloor k)).

(** [q] is a binary64 number: a whole number of its own units in the
    last place. *)
Definition isDouble (q : Q) : bool :=
  isInteger (q / pow2 (ulpExponent q)).

(** Rounding to nearest, ties to even: what a JavaScript operation
    stores when its exact result is [q].  A double is left as it is. *)
Definition fl (q : Q) : Q :=
  if isDouble q then q
  else inject_Z (roundHalfEven (q / pow2 (ulpExponent q)))
       * pow2 (ulpExponent q).

(** A whole number of quarter pixels.  Sums and differences of such
    numbers are exact in binary64 as long as they stay below [2^50]. *)
Definition quarterPixel (q : Q) : bool := isInteger (q * 4).

(** ** The machine's doubles *)

(** [fl] is compared with the binary64 arithmetic of the machine on a
    table of samples (see [fl_agrees_with_machine_doubles]).  The value
    of a finite machine double, as a rational: *)
Definition valueOfDouble (f : PrimFloat.float) : option Q :=
  match FloatOps.Prim2SF f with
  | SpecFloat.S754_zero _ => Some 0
  | SpecFloat.S754_finite s m e =>
      Some ((if s then - inject_Z (Zpos m) else inject_Z (Zpos m)) * pow2 e)
  | _ => None
  end.

(** The machine double of a whole number below [2^53] in size. *)
Definition doubleOfZ (z : Z) : PrimFloat.float :=
  if (z <? 0)%Z then PrimFloat.opp (PrimFloat.of_uint63 (Uint63.of_Z (- z)))
  else PrimFloat.of_uint63 (Uint63.of_Z z).

Definition sameValue (f : PrimFloat.float) (q : Q) : bool :=
  match valueOfDouble f with
  | Some v => Qeq_bool v q
  | None => false
  end.

(** The quotients [a / b] and [c / d], and their sum, difference,
    product and quotient, computed by the machine and by [fl]. *)
Definition agreesAt (a b c d : Z) : bool :=
  let x := PrimFloat.div (doubleOfZ a) (doubleOfZ b) in
  let y := PrimFloat.div (doubleOfZ c) (doubleOfZ d) in
  let p := fl (inject_Z a / inject_Z b) in
  let q := fl (inject_Z c / inject_Z d) in
  sameValue x p && sameValue y q
  && sameValue (PrimFloat.add x y) (fl (p + q))
  && sameValue (PrimFloat.sub x y) (fl (p - q))
  && sameValue (PrimFloat.mul x y) (fl (p * q))
  && sameValue (PrimFloat.div x y) (fl (p / q)).

Definition samples : list (Z * Z) :=
  [(1, 3); (123, 10); (1003, 10); (1032, 10); (101, 10); (1, 10);
   (800, 1856); (300, 348); (300, 562); (26458, 100000); (4998, 10);
   (1007, 10); (-5, 1); (20, 1); (145, 1); (2, 75); (223, 10);
   (1, 1125899906842624); (9007199254740991, 7)]%Z.

Definition agreesOnSamples : bool :=
  forallb (fun ab =>
             forallb (fun cd => agreesAt (fst ab) (snd ab) (fst cd) (snd cd))
                     samples)
          samples.

(** ** The tool object *)

(** The string tags assigned to [this.dragMode]. *)
Inductive DragMode : Set :=
| topLeft
| topRight
| bottomLeft
| bottomRight
| move
| new.

(** The fields of [ImageCropTool] that the geometry reads or writes.
    [cropCanvasWidth] and [cropCanvasHeight] stand for
    [this.cropCanvas.width] and [this.cropCanvas.height].

    [dragMode], [dragOffsetX] and [dragOffsetY] are not declared in the
    object literal: they come into being at the first [startDrag].  An
    undefined [dragMode] is [None].  The two offsets are read only in
    the ['move'] case of [updateDrag], and ['move'] is only ever set
    together with them, so they are plain numbers here (see
    [updateDrag_offsets_only_in_move]). *)
Record ImageCropTool : Set := mkTool {
  cropCanvasWidth  : Q;
  cropCanvasHeight : Q;
  cropStartX : Q;
  cropStartY : Q;
  cropEndX   : Q;
  cropEndY   : Q;
  isDragging : bool;
  dragMode   : option DragMode;
  dragOffsetX : Q;
  dragOffsetY : Q
}.

(** The object literal: every number 0, [isDragging: false], no drag mode.
    The canvas size before an image is loaded belongs to the page; it is
    a parameter. *)
Definition initialTool (canvasW canvasH : Q) : ImageCropTool :=
  mkTool canvasW canvasH 0 0 0 0 false None 0 0.

(** Field updates, one per assignment form used by the source. *)
Definition setRect (s : ImageCropTool) (x0 y0 x1 y1 : Q) : ImageCropTool :=
  mkTool (cropCanvasWidth s) (cropCanvasHeight s) x0 y0 x1 y1
         (isDragging s) (dragMode s) (dragOffsetX s) (dragOffsetY s).

Definition setDragging (s : ImageCropTool) (b : bool) : ImageCropTool :=
  mkTool (cropCanvasWidth s) (cropCanvasHeight s)
         (cropStartX s) (cropStartY s) (cropEndX s) (cropEndY s)
         b (dragMode s) (dragOffsetX s) (dragOffsetY s).

Definition setDragMode (s : ImageCropTool) (m : DragMode) : ImageCropTool :=
  mkTool (cropCanvasWidth s) (cropCanvasHeight s)
         (cropStartX s) (cropStartY s) (cropEndX s) (cropEndY s)
         (isDragging s) (Some m) (dragOffsetX s) (dragOffsetY s).

Definition setDragOffset (s : ImageCropTool) (ox oy : Q) : ImageCropTool :=
  mkTool (cropCanvasWidth s) (cropCanvasHeight s)
         (cropStartX s) (cropStartY s) (cropEndX s) (cropEndY s)
         (isDragging s) (dragMode s) ox oy.

Definition setCanvas (s : ImageCropTool) (w h : Q) : ImageCropTool :=
  mkTool w h
         (cropStartX s) (cropStartY s) (cropEndX s) (cropEndY s)
         (isDragging s) (dragMode s) (dragOffsetX s) (dragOffsetY s).

(** The rectangle as the renderer reads it:
    [(cropStartX, cropStartY, cropEndX, cropEndY)]. *)
Definition currentRectangle (s : ImageCropTool) : Q * Q * Q * Q :=
  (cropStartX s, cropStartY s, cropEndX s, cropEndY s).

(** ** Operations *)

(** [handleImageSelect], on the path where the image loads: the canvas
    takes the image's size and the crop area becomes the centre 50%.
    [w] and [h] are [originalImage.width] and [originalImage.height],
    whole numbers; the four products are then exact in binary64 and are
    written without rounding.  Neither [isDragging] nor [dragMode] is
    touched. *)
Definition handleImageSelect (s : ImageCropTool) (w h : Q) : ImageCropTool :=
  setRect (setCanvas s w h)
          (w * 0.25) (h * 0.25) (w * 0.75) (h * 0.75).

Definition handleSize : Q := 10.
Definition minSize : Q := 20.

(** The pointer handlers, with the rounding of the four arithmetic
    operations as a parameter [rnd].  The code is the instance
    [rnd := fl]; the instance [rnd := exactly] is the same text computed
    without rounding, which the proofs compare it with. *)
Section Arithmetic.

Variable rnd : Q -> Q.

(** [Math.abs(a - b) < handleSize]. *)
Definition nearHandleIn (a b : Q) : bool := Qabs (rnd (a - b)) <? handleSize.

(** [startDrag(x, y)]: the if / else-if chain, in source order. *)
Definition startDragIn (s : ImageCropTool) (x y : Q) : ImageCropTool :=
  if nearHandleIn x (cropStartX s) && nearHandleIn y (cropStartY s) then
    setDragMode s topLeft
  else if nearHandleIn x (cropEndX s) && nearHandleIn y (cropStartY s) then
    setDragMode s topRight
  else if nearHandleIn x (cropStartX s) && nearHandleIn y (cropEndY s) then
    setDragMode s bottomLeft
  else if nearHandleIn x (cropEndX s) && nearHandleIn y (cropEndY s) then
    setDragMode s bottomRight
  else if (x >? cropStartX s) && (x <? cropEndX s)
          && (y >? cropStartY s) && (y <? cropEndY s) then
    setDragOffset (setDragMode s move)
                  (rnd (x - cropStartX s)) (rnd (y - cropStartY s))
  else
    setRect (setDragMode s new) x y x y.

(** The ['move'] case of [updateDrag]: four guarded assignments to
    [newStartX] / [newStartY], then the four field writes. *)
Definition moveRectIn (s : ImageCropTool) (x y : Q) : ImageCropTool :=
  let width := rnd (cropEndX s - cropStartX s) in
  let height := rnd (cropEndY s - cropStartY s) in
  let newStartX := rnd (x - dragOffsetX s) in
  let newStartY := rnd (y - dragOffsetY s) in
  let newStartX := if newStartX <? 0 then 0 else newStartX in
  let newStartY := if newStartY <? 0 then 0 else newStartY in
  let newStartX := if rnd (newStartX + width) >? cropCanvasWidth s
                   then rnd (cropCanvasWidth s - width) else newStartX in
  let newStartY := if rnd (newStartY + height) >? cropCanvasHeight s
                   then rnd (cropCanvasHeight s - height) else newStartY in
  setRect s newStartX newStartY
          (rnd (newStartX + width)) (rnd (newStartY + height)).

(** [updateDrag(x, y)]: the point is first constrained to the canvas,
    then the switch on [dragMode].  An undefined mode matches no case. *)
Definition updateDragIn (s : ImageCropTool) (x y : Q) : ImageCropTool :=
  let x := Qmax 0 (Qmin (cropCanvasWidth s) x) in
  let y := Qmax 0 (Qmin (cropCanvasHeight s) y) in
  match dragMode s with
  | Some topLeft =>
      setRect s (Qmin (rnd (cropEndX s - minSize)) x)
                (Qmin (rnd (cropEndY s - minSize)) y)
                (cropEndX s) (cropEndY s)
  | Some topRight =>
      setRect s (cropStartX s) (Qmin (rnd (cropEndY s - minSize)) y)
                (Qmax (rnd (cropStartX s + minSize)) x) (cropEndY s)
  | Some bottomLeft =>
      setRect s (Qmin (rnd (cropEndX s - minSize)) x) (cropStartY s)
                (cropEndX s) (Qmax (rnd (cropStartY s + minSize)) y)
  | Some bottomRight =>
      setRect s (cropStartX s) (cropStartY s)
                (Qmax (rnd (cropStartX s + minSize)) x)
                (Qmax (rnd (cropStartY s + minSize)) y)
  | Some move => moveRectIn s x y
  | Some new => setRect s (cropStartX s) (cropStartY s) x y
  | None => s
  end.

End Arithmetic.

(** No rounding. *)
Definition exactly (q : Q) : Q := q.

(** The handlers as the browser runs them. *)
Definition nearHandle : Q -> Q -> bool := nearHandleIn fl.
Definition startDrag : ImageCropTool -> Q -> Q -> ImageCropTool :=
  startDragIn fl.
Definition moveRect : ImageCropTool -> Q -> Q -> ImageCropTool :=
  moveRectIn fl.
Definition updateDrag : ImageCropTool -> Q -> Q -> ImageCropTool :=
  updateDragIn fl.

(** [onMouseDown] / one-finger [onTouchStart], with the point already
    converted to canvas coordinates. *)
Definition onMouseDown (s : ImageCropTool) (x y : Q) : ImageCropTool :=
  startDrag (setDragging s true) x y.

(** [onMouseMove] / one-finger [onTouchMove]: ignored unless dragging. *)
Definition onMouseMove (s : ImageCropTool) (x y : Q) : ImageCropTool :=
  if isDragging s then updateDrag s x y else s.

(** [onMouseUp] (also bound to [mouseleave]) / [onTouchEnd]. *)
Definition onMouseUp (s : ImageCropTool) : ImageCropTool :=
  setDragging s false.

(** What the page can do to the tool. *)
Inductive Event : Set :=
| ImageSelect (w h : Q)
| MouseDown (x y : Q)
| MouseMove (x y : Q)
| MouseUp.

Definition step (s : ImageCropTool) (e : Event) : ImageCropTool :=
  match e with
  | ImageSelect w h => handleImageSelect s w h
  | MouseDown x y => onMouseDown s x y
  | MouseMove x y => onMouseMove s x y
  | MouseUp => onMouseUp s
  end.

Definition run (s : ImageCropTool) (es : list Event) : ImageCropTool :=
  fold_left step es s.

(** Consecutive [updateDrag] calls, one per pointer position. *)
Definition updates (s : ImageCropTool) (ps : list (Q * Q)) : ImageCropTool :=
  fold_left (fun t p => updateDrag t (fst p) (snd p)) ps s.

(** The same positions delivered as [mousemove] events. *)
Definition mouseMoves (ps : list (Q * Q)) : list Event :=
  map (fun p => MouseMove (fst p) (snd p)) ps.

(** The derived [dimensions()]. *)
Definition cropWidth (s : ImageCropTool) : Q := cropEndX s - cropStartX s.
Definition cropHeight (s : ImageCropTool) : Q := cropEndY s - cropStartY s.

(** ** Predicates on modes and rectangles *)

(** The four resize modes. *)
Definition isCorner (m : option DragMode) : bool :=
  match m with
  | Some topLeft | Some topRight | Some bottomLeft | Some bottomRight => true
  | _ => false
  end.

(** The invariant of the specification: a normalised rectangle with both
    corners inside the canvas. *)
Definition rectInBounds (s : ImageCropTool) : Prop :=
  (0 <= cropStartX s /\ cropStartX s <= cropEndX s
   /\ cropEndX s <= cropCanvasWidth s) /\
  (0 <= cropStartY s /\ cropStartY s <= cropEndY s
   /\ cropEndY s <= cropCanvasHeight s).

Definition isNew (m : option DragMode) : bool :=
  match m with
  | Some new => true
  | _ => false
  end.

Definition isMove (m : option DragMode) : bool :=
  match m with
  | Some move => true
  | _ => false
  end.

(** The specification's clamp of one coordinate into [0, bound]:
    [max(0, min(bound, v))]. *)
Definition clampToBounds (bound v : Q) : Q := Qmax 0 (Qmin bound v).

(** ** Events under which the rectangle stays in bounds *)

(** The largest canvas side considered, [2^40]. *)
Definition maxCanvas : Q := 1099511627776.


(** The clamped pointer is not to the left of nor above the start
    corner. *)
Definition forwardOfStart (s : ImageCropTool) (x y : Q) : bool :=
  Qle_bool (cropStartX s) (clampToBounds (cropCanvasWidth s) x)
  && Qle_bool (cropStartY s) (clampToBounds (cropCanvasHeight s) y).




(** The canvas and the rectangle are on the quarter-pixel grid and the
    canvas is no larger than [maxCanvas]. *)
Definition onGrid (s : ImageCropTool) : Prop :=
  (quarterPixel (cropCanvasWidth s) = true /\
   quarterPixel (cropCanvasHeight s) = true) /\
  (quarterPixel (cropStartX s) = true /\ quarterPixel (cropStartY s) = true /\
   quarterPixel (cropEndX s) = true /\ quarterPixel (cropEndY s) = true) /\
  (0 <= cropCanvasWidth s <= maxCanvas /\
   0 <= cropCanvasHeight s <= maxCanvas).

(** The drag offsets are on the grid and no larger than [maxCanvas]. *)
Definition offsetsOnGrid (s : ImageCropTool) : Prop :=
  (quarterPixel (dragOffsetX s) = true /\
   quarterPixel (dragOffsetY s) = true) /\
  (Qabs (dragOffsetX s) <= maxCanvas /\ Qabs (dragOffsetY s) <= maxCanvas).


(** ** Corner drags and pointer positions on the grid *)

(** A coordinate on the quarter-pixel grid, at most [maxCanvas] in
    size. *)
Definition onGridWithin (q : Q) : Prop :=
  quarterPixel q = true /\ Qabs q <= maxCanvas.

(** The two sides that a corner drag never writes: those of the
    opposite corner. *)
Definition fixedSides (s : ImageCropTool) : list Q :=
  match dragMode s with
  | Some topLeft => [cropEndX s; cropEndY s]
  | Some topRight => [cropStartX s; cropEndY s]
  | Some bottomLeft => [cropEndX s; cropStartY s]
  | Some bottomRight => [cropStartX s; cropStartY s]
  | _ => []
  end.

Definition gridPoint (p : Q * Q) : Prop :=
  quarterPixel (fst p) = true /\ quarterPixel (snd p) = true.

(** ** Hit-testing as a list of rules *)

(** [beginGesture] as the specification words it: an ordered list of
    hit rules, the first matching rule decides, and the fall-through is
    ['new'].  A point is within tolerance of a corner when it is less
    than [handleTolerance] away on each axis; the distance is computed
    with the rounding [rnd].  With [rnd := exactly] this is the
    specification read over the reals; with [rnd := fl] the distances
    are the binary64 ones. *)
Definition handleTolerance : Q := 10.

Definition withinTolerance (rnd : Q -> Q) (p c : Q * Q) : bool :=
  (Qabs (rnd (fst p - fst c)) <? handleTolerance)
  && (Qabs (rnd (snd p - snd c)) <? handleTolerance).

Definition strictlyInside (s : ImageCropTool) (p : Q * Q) : bool :=
  (cropStartX s <? fst p) && (fst p <? cropEndX s)
  && (cropStartY s <? snd p) && (snd p <? cropEndY s).

Definition hitRules (rnd : Q -> Q) (s : ImageCropTool)
  : list ((Q * Q -> bool) * DragMode) :=
  [ (fun p => withinTolerance rnd p (cropStartX s, cropStartY s), topLeft);
    (fun p => withinTolerance rnd p (cropEndX s, cropStartY s), topRight);
    (fun p => withinTolerance rnd p (cropStartX s, cropEndY s), bottomLeft);
    (fun p => withinTolerance rnd p (cropEndX s, cropEndY s), bottomRight);
    (strictlyInside s, move) ].

Fixpoint firstMatch (rules : list ((Q * Q -> bool) * DragMode)) (p : Q * Q)
  : option DragMode :=
  match rules with
  | [] => None
  | (hit, m) :: rest => if hit p then Some m else firstMatch rest p
  end.

Definition resolveMode (rnd : Q -> Q) (s : ImageCropTool) (p : Q * Q)
  : DragMode :=
  match firstMatch (hitRules rnd s) p with
  | Some m => m
  | None => new
  end.

(** The specification's hit test, over the reals. *)
Definition resolveMode_spec : ImageCropTool -> Q * Q -> DragMode :=
  resolveMode exactly.

(** * The other image tools *)

(** ** [ImageTools.resizeImageForPreview] *)

(** [Math.round]: the nearest integer, halves rounded up. *)
Definition MathRound (q : Q) : Z := Qfloor (q + (1 # 2)).

Definition MAX_PREVIEW_SIZE : Z := 800.

(** The largest image side considered, [2^32]. *)
Definition maxImageSide : Z := 4294967296.

(** [resizeImageForPreview(img)], as the size of the canvas it returns.
    [imgWidth] and [imgHeight] are [img.width] and [img.height], which
    the browser gives as non-negative integers.  The quotient and the
    product are each rounded to a double before [Math.round]. *)
Definition resizeImageForPreview (imgWidth imgHeight : Z) : Z * Z :=
  let maxSize := MAX_PREVIEW_SIZE in
  let width := imgWidth in
  let height := imgHeight in
  if (width >? height)%Z then
    if (width >? maxSize)%Z then
      (maxSize,
       MathRound (fl (inject_Z height
                      * fl (inject_Z maxSize / inject_Z width))))
    else (width, height)
  else
    if (height >? maxSize)%Z then
      (MathRound (fl (inject_Z width
                      * fl (inject_Z maxSize / inject_Z height))),
       maxSize)
    else (width, height).

(** ** [ImageResizeTool] *)

Module ImageResizeTool.

(** The fields and inputs that [updateResizePreview] reads.
    [originalImage] holds the image's width and height, [None] for
    [null].  An input is represented by what [parseInt] reads from it,
    [None] for [NaN]. *)
Record t : Set := mk {
  originalImage : option (Z * Z);
  widthInput : option Z;
  heightInput : option Z
}.

(** [previewWidth] and [previewHeight] of [updateResizePreview]; the
    quotient and the product are each rounded to a double. *)
Definition previewSize (width height : Z) : Q * Q :=
  let maxPreviewDimension := 300 in
  if (width >? height)%Z then
    let previewWidth := Qmin (inject_Z width) maxPreviewDimension in
    let previewHeight :=
      fl (fl (previewWidth / inject_Z width) * inject_Z height) in
    (previewWidth, previewHeight)
  else
    let previewHeight := Qmin (inject_Z height) maxPreviewDimension in
    let previewWidth :=
      fl (fl (previewHeight / inject_Z height) * inject_Z width) in
    (previewWidth, previewHeight).

(** [updateResizePreview]: the size of the canvas it draws, or [None]
    when it returns early.  Assigning a positive number to
    [canvas.width] keeps its integer part. *)
Definition updateResizePreview (s : t) : option (Z * Z) :=
  match originalImage s, widthInput s, heightInput s with
  | Some _, Some width, Some height =>
      if (width <=? 0)%Z || (height <=? 0)%Z then None
      else
        let '(previewWidth, previewHeight) := previewSize width height in
        Some (Qfloor previewWidth, Qfloor previewHeight)
  | _, _, _ => None
  end.

End ImageResizeTool.

(** ** JavaScript arrays *)

(** An array whose entries may be [undefined] ([None]); holes are not
    told apart from [undefined] entries. *)

(** [a[i]]: [undefined] outside the array. *)
Definition jsGet {A : Type} (a : list (option A)) (i : nat) : option A :=
  nth i a None.

(** [a[i] = v]: an index at or beyond [a.length] extends the array. *)
Definition jsSet {A : Type} (a : list (option A)) (i : nat) (v : option A)
  : list (option A) :=
  if (i <? length a)%nat then firstn i a ++ v :: skipn (S i) a
  else a ++ repeat None (i - length a) ++ [v].

(** [a.splice(i, 1)] for an index [i >= 0]: nothing is removed at or
    beyond [a.length]. *)
Definition jsSplice1 {A : Type} (a : list A) (i : nat) : list A :=
  firstn i a ++ skipn (S i) a.

(** ** [ImageToPdfTool] *)

Module ImageToPdfTool.

Section Images.
(** [File] objects, [Image] elements and data URLs are opaque. *)
Context {File Img DataURL : Type}.

(** What the canvas gives for a picture drawn rotated by a quarter
    turn, [canvas.toDataURL()], and the [Image] loaded from it. *)
Variable rotatedDataURL : Img -> Z -> Z -> DataURL.
Variable loadImage : DataURL -> Img.

(** An entry of [this.images]. *)
Record image : Type := mkImage {
  file : File;
  img : Img;
  thumbnail : option DataURL;
  width : Z;
  height : Z
}.

(** [removeImage(index)]. *)
Definition removeImage (images : list (option image)) (index : nat)
  : list (option image) :=
  jsSplice1 images index.

(** [rotateImage(index)], as far as [this.images] goes: the entry is
    updated in place, and the wait for the rotated picture to load is
    taken as part of the one call.  Reading a property of an
    [undefined] entry throws before anything is written; the second
    component tells whether that happened.  The redraw by
    [updateImageList] at the end of the [try] block and the messages
    are page effects and are not modelled: the redraw can itself throw
    and end in the same [catch], after the entry has been rotated. *)
Definition rotateImage (images : list (option image)) (index : nat)
  : list (option image) * bool :=
  match jsGet images index with
  | None => (images, true)
  | Some image =>
      let rotated := rotatedDataURL (img image) (width image) (height image) in
      (jsSet images index
             (Some (mkImage (file image) (loadImage rotated) (Some rotated)
                            (height image) (width image))),
       false)
  end.

(** [moveImage(index, direction)]. *)
Definition moveImage (images : list (option image)) (index : nat)
           (direction : String.string) : list (option image) :=
  if String.eqb direction "up" && (0 <? index)%nat then
    let temp := jsGet images index in
    let images := jsSet images index (jsGet images (index - 1)) in
    jsSet images (index - 1) temp
  else if String.eqb direction "down"
          && (index <? length images - 1)%nat then
    let temp := jsGet images index in
    let images := jsSet images index (jsGet images (index + 1)) in
    jsSet images (index + 1) temp
  else images.

(** [updateImageOrder]: [domOrder] lists the [data-index] of the
    list items in the order the page shows them. *)
Definition updateImageOrder (images : list (option image))
           (domOrder : list nat) : list (option image) :=
  map (jsGet images) domOrder.
End Images.

(** [parseInt(...) || 10]: an unreadable margin and the margin 0 both
    give 10. *)
Definition marginOrDefault (parsed : option Z) : Z :=
  match parsed with
  | None => 10%Z
  | Some 0%Z => 10%Z
  | Some m => m
  end.

(** The arguments of one [pdf.addImage] call. *)
Record Placement : Set := mkPlacement {
  xPos : Q;
  yPos : Q;
  imgWidth : Q;
  imgHeight : Q
}.

(** The body of the loop of [convertToPdf] for one image [w] x [h],
    every operation rounded to a double.  A scale factor is only
    computed from a side that exceeds the content area, so with a
    positive content area no divisor is 0. *)
Definition placeImage (margin contentWidth contentHeight : Q) (w h : Z)
  : Placement :=
  let imgWidth := inject_Z w in
  let imgHeight := inject_Z h in
  let '(imgWidth, imgHeight) :=
    if imgWidth >? contentWidth then
      let scaleFactor := fl (contentWidth / imgWidth) in
      (contentWidth, fl (imgHeight * scaleFactor))
    else (imgWidth, imgHeight) in
  let '(imgWidth, imgHeight) :=
    if imgHeight >? contentHeight then
      let scaleFactor := fl (contentHeight / imgHeight) in
      (fl (imgWidth * scaleFactor), contentHeight)
    else (imgWidth, imgHeight) in
  let imgWidth := fl (imgWidth * fl 0.26458) in
  let imgHeight := fl (imgHeight * fl 0.26458) in
  mkPlacement (fl (margin + fl (fl (contentWidth - imgWidth) / 2)))
              (fl (margin + fl (fl (contentHeight - imgHeight) / 2)))
              imgWidth imgHeight.

(** Why [convertToPdf] shows an error instead of a document. *)
Inductive PdfError : Set :=
| NoImages          (* 'Please add at least one image' *)
| LibraryMissing    (* 'PDF generation library not available' *)
| UndefinedEntry.   (* a property of an undefined entry was read *)

Fixpoint placeAll {File Img DataURL : Type}
         (margin contentWidth contentHeight : Q)
         (images : list (option (@image File Img DataURL)))
  : PdfError + list Placement :=
  match images with
  | [] => inr []
  | None :: _ => inl UndefinedEntry
  | Some image :: rest =>
      match placeAll margin contentWidth contentHeight rest with
      | inl e => inl e
      | inr ps =>
          inr (placeImage margin contentWidth contentHeight
                          (width image) (height image) :: ps)
      end
  end.

(** [convertToPdf]: the [addImage] calls, one page each, or the error
    shown.  [jsPDFdefined] is [typeof jsPDF !== 'undefined'];
    [pageWidth] and [pageHeight] are what the library reports for the
    chosen format, in millimetres; [marginInput] is what [parseInt]
    reads from the margin field. *)
Definition convertToPdf {File Img DataURL : Type}
           (jsPDFdefined : bool) (pageWidth pageHeight : Q)
           (marginInput : option Z)
           (images : list (option (@image File Img DataURL)))
  : PdfError + list Placement :=
  if (length images =? 0)%nat then inl NoImages
  else if negb jsPDFdefined then inl LibraryMissing
  else
    let margin := inject_Z (marginOrDefault marginInput) in
    let contentWidth := fl (pageWidth - fl (margin * 2)) in
    let contentHeight := fl (pageHeight - fl (margin * 2)) in
    placeAll margin contentWidth contentHeight images.

End ImageToPdfTool.

(** * Proofs *)

(** ** Binary64 rounding *)

(** Powers of two. *)
Lemma pow2_pos k : 0 < pow2 k.
Proof. apply Qpower_0_lt. reflexivity. Qed.

Lemma pow2_add a b : pow2 (a + b) == pow2 a * pow2 b.
Proof. apply Qpower_plus. discriminate. Qed.

Lemma pow2_opp a : pow2 (- a) == / pow2 a.
Proof. apply Qpower_opp. Qed.

Lemma pow2_Z n : (0 <= n)%Z -> pow2 n == inject_Z (2 ^ n).
Proof. intros H. unfold pow2. now rewrite Zpower_Qpower. Qed.

Lemma pow2_le a b : (a <= b)%Z -> pow2 a <= pow2 b.
Proof. intros H. apply Qpower_le_compat_l; [assumption|discriminate]. Qed.

Lemma pow2_lt a b : (a < b)%Z -> pow2 a < pow2 b.
Proof. intros H. apply Qpower_lt_compat_l; [assumption|reflexivity]. Qed.

Lemma pow2_le_inv a b : pow2 a <= pow2 b -> (a <= b)%Z.
Proof.
  intros H. apply (Qpower_le_compat_l_inv 2); [assumption|reflexivity].
Qed.

Lemma pow2_lt_inv a b : pow2 a < pow2 b -> (a < b)%Z.
Proof.
  intros H. apply (Qpower_lt_compat_l_inv 2); [assumption|reflexivity].
Qed.

Lemma pow2_succ k : pow2 (k + 1) == pow2 k * 2.
Proof.
  rewrite pow2_add. setoid_replace (pow2 1) with 2 by reflexivity.
  reflexivity.
Qed.

Lemma isInteger_iff k : isInteger k = true <-> exists z : Z, k == inject_Z z.
Proof.
  unfold isInteger. split.
  - intros H. apply Qeq_bool_eq in H. eauto.
  - intros [z E]. apply Qeq_eq_bool. rewrite E at 2. now rewrite Qfloor_Z.
Qed.

Lemma Zlog2_bounds (n : Z) :
  (0 < n)%Z ->
  inject_Z (2 ^ Z.log2 n) <= inject_Z n /\
  inject_Z n < inject_Z (2 ^ (Z.log2 n + 1)).
Proof.
  intros H. destruct (Z.log2_spec n H) as [L U].
  rewrite <- Zle_Qle, <- Zlt_Qlt.
  replace (Z.log2 n + 1)%Z with (Z.succ (Z.log2 n)) by lia.
  split; assumption.
Qed.

(** [floorLog2] is the binade of a positive number. *)
Lemma floorLog2_spec (q : Q) :
  0 < q -> pow2 (floorLog2 q) <= q /\ q < pow2 (floorLog2 q + 1).
Proof.
  intros Hq. unfold floorLog2.
  destruct q as [n d]. cbn [Qnum Qden].
  assert (Hn : (0 < n)%Z).
  { unfold Qlt in Hq. cbn in Hq. lia. }
  destruct (Zlog2_bounds n Hn) as [Ln Un].
  destruct (Zlog2_bounds (Zpos d) eq_refl) as [Ld Ud].
  set (a := Z.log2 n) in *. set (b := Z.log2 (Zpos d)) in *.
  assert (Ha : (0 <= a)%Z) by apply Z.log2_nonneg.
  assert (Hb : (0 <= b)%Z) by apply Z.log2_nonneg.
  rewrite <- !pow2_Z in Ln, Un, Ld, Ud by lia.
  assert (Eq : n # d == inject_Z n / inject_Z (Zpos d)) by apply Qmake_Qdiv.
  assert (Hd : 0 < inject_Z (Zpos d)) by reflexivity.
  set (N := inject_Z n) in *. set (D := inject_Z (Zpos d)) in *.
  assert (EqM : (n # d) * D == N) by (rewrite Eq; field; lra).
  set (q := n # d) in *. clearbody q N D.
  pose proof (pow2_pos (a - b)) as P1.
  pose proof (pow2_pos (a - b - 1)) as P2.
  pose proof (pow2_pos b) as P3.
  assert (A1 : pow2 a == pow2 (a - b) * pow2 b).
  { rewrite <- pow2_add. now replace (a - b + b)%Z with a by lia. }
  assert (A2 : pow2 (a - b) == pow2 (a - b - 1) * 2).
  { rewrite <- pow2_succ. now replace (a - b - 1 + 1)%Z with (a - b)%Z by lia. }
  pose proof (pow2_succ b) as A3.
  pose proof (pow2_succ a) as A4.
  pose proof (pow2_succ (a - b)) as A5.
  destruct (Qle_bool (pow2 (a - b)) q) eqn:T.
  - apply Qle_bool_iff in T. split; [exact T|].
    rewrite A5. 
    set (p := pow2 (a - b)) in *. set (pa := pow2 a) in *.
    set (pb := pow2 b) in *.
    clearbody p pa pb. nra.
  - assert (T' : q < pow2 (a - b)).
    { apply Qnot_le_lt. intros C. apply Qle_bool_iff in C. congruence. }
    replace (a - b - 1 + 1)%Z with (a - b)%Z by lia. split; [|exact T'].
    set (p := pow2 (a - b)) in *. set (p' := pow2 (a - b - 1)) in *.
    set (pa := pow2 a) in *. set (pb := pow2 b) in *.
    set (pb1 := pow2 (b + 1)) in *. clearbody p p' pa pb pb1. nra.
Qed.

Lemma floorLog2_unique (q : Q) (k : Z) :
  pow2 k <= q -> q < pow2 (k + 1) -> floorLog2 q = k.
Proof.
  intros L U.
  assert (Hq : 0 < q) by (pose proof (pow2_pos k); lra).
  destruct (floorLog2_spec q Hq) as [L' U'].
  assert (floorLog2 q < k + 1)%Z by (apply pow2_lt_inv; lra).
  assert (k < floorLog2 q + 1)%Z by (apply pow2_lt_inv; lra).
  lia.
Qed.


Lemma div_pow2 (q : Q) (e : Z) : q / pow2 e == q * pow2 (- e).
Proof. rewrite pow2_opp. reflexivity. Qed.

Lemma roundHalfEven_bounds (k : Q) :
  (Qfloor k <= roundHalfEven k)%Z /\ (roundHalfEven k <= Qfloor k + 1)%Z /\
  (k == inject_Z (Qfloor k) -> roundHalfEven k = Qfloor k) /\
  inject_Z (roundHalfEven k) - (1 # 2) <= k /\
  k <= inject_Z (roundHalfEven k) + (1 # 2).
Proof.
  unfold roundHalfEven.
  pose proof (Qfloor_le k) as Fl. pose proof (Qlt_floor k) as Fu.
  rewrite inject_Z_plus in Fu. change (inject_Z 1) with 1 in Fu.
  set (f := Qfloor k) in *.
  destruct (Qcompare_spec (k - inject_Z f) (1 # 2)) as [E|L|G].
  - destruct (Z.even f); repeat split; try lia;
      try (intros; lra); try rewrite inject_Z_plus;
      change (inject_Z 1) with 1; lra.
  - repeat split; try lia; lra.
  - repeat split; try lia; try (intros; lra);
      rewrite inject_Z_plus; change (inject_Z 1) with 1; lra.
Qed.

Lemma roundHalfEven_ge_int (z : Z) (k : Q) :
  inject_Z z <= k -> (z <= roundHalfEven k)%Z.
Proof.
  intros H. destruct (roundHalfEven_bounds k) as (L & _).
  apply Qfloor_resp_le in H. rewrite Qfloor_Z in H. lia.
Qed.

Lemma roundHalfEven_le_int (z : Z) (k : Q) :
  k <= inject_Z z -> (roundHalfEven k <= z)%Z.
Proof.
  intros H. destruct (roundHalfEven_bounds k) as (_ & U & I & _).
  pose proof (Qfloor_le k) as Fl.
  destruct (Qeq_dec k (inject_Z (Qfloor k))) as [E|N].
  - rewrite (I E). apply Qfloor_resp_le in H. now rewrite Qfloor_Z in H.
  - assert (inject_Z (Qfloor k) < inject_Z z) by lra.
    rewrite <- Zlt_Qlt in H0. lia.
Qed.

Lemma roundHalfEven_int (k : Q) (z : Z) :
  k == inject_Z z -> roundHalfEven k = z.
Proof.
  intros E. apply Z.le_antisymm.
  - apply roundHalfEven_le_int. lra.
  - apply roundHalfEven_ge_int. lra.
Qed.

Lemma isDouble_decomp (c : Q) :
  isDouble c = true ->
  exists z : Z, c == inject_Z z * pow2 (ulpExponent c).
Proof.
  unfold isDouble. intros H. apply isInteger_iff in H as [z E].
  exists z. rewrite <- E. field.
  pose proof (pow2_pos (ulpExponent c)). lra.
Qed.

Lemma fl_formula (q : Q) :
  fl q == inject_Z (roundHalfEven (q / pow2 (ulpExponent q)))
          * pow2 (ulpExponent q).
Proof.
  unfold fl. destruct (isDouble q) eqn:D; [|reflexivity].
  destruct (isDouble_decomp q D) as [z E].
  pose proof (pow2_pos (ulpExponent q)) as P.
  rewrite (roundHalfEven_int _ z).
  - exact E.
  - rewrite E at 1. field. lra.
Qed.

Lemma fl_double (q : Q) : isDouble q = true -> fl q = q.
Proof. unfold fl. now intros ->. Qed.

(** The rounding error is at most half a unit in the last place. *)
Lemma fl_error (q : Q) :
  Qabs (fl q - q) <= pow2 (ulpExponent q) / 2.
Proof.
  rewrite fl_formula.
  pose proof (pow2_pos (ulpExponent q)) as P.
  set (u := pow2 (ulpExponent q)) in *.
  destruct (roundHalfEven_bounds (q / u)) as (_ & _ & _ & L & U).
  set (r := inject_Z (roundHalfEven (q / u))) in *. clearbody r.
  assert (Eq : q / u * u == q) by (field; lra).
  set (k := q / u) in *. clearbody k u.
  apply Qabs_Qle_condition. split.
  - assert (H2 : (r - k) * u >= - (1#2) * u) by nra.
    assert (u / 2 == (1#2) * u) by field. nra.
  - assert (u / 2 == (1#2) * u) by field. nra.
Qed.

Lemma isDouble_zero (q : Q) : q == 0 -> isDouble q = true.
Proof.
  intros E. unfold isDouble. apply isInteger_iff. exists 0%Z.
  pose proof (pow2_pos (ulpExponent q)) as P.
  set (u := pow2 (ulpExponent q)) in *. clearbody u.
  rewrite E. change (inject_Z 0) with 0. field. lra.
Qed.

(** A double whose unit in the last place is no finer than [y]'s is a
    whole number of [y]'s units. *)
Lemma double_on_coarser_grid (c : Q) (e : Z) :
  isDouble c = true -> (e <= ulpExponent c)%Z ->
  exists z : Z, c / pow2 e == inject_Z z.
Proof.
  intros D H. destruct (isDouble_decomp c D) as [z E].
  exists (z * 2 ^ (ulpExponent c - e))%Z.
  rewrite inject_Z_mult, <- pow2_Z by lia.
  rewrite E at 1. rewrite div_pow2, <- Qmult_assoc, <- pow2_add.
  now replace (ulpExponent c + - e)%Z with (ulpExponent c - e)%Z by lia.
Qed.

Lemma binade_bounds (q : Q) :
  ~ q == 0 ->
  pow2 (floorLog2 (Qabs q)) <= Qabs q /\
  Qabs q < pow2 (floorLog2 (Qabs q) + 1).
Proof.
  intros N. apply floorLog2_spec.
  pose proof (Qabs_nonneg q) as H.
  destruct (Qeq_dec (Qabs q) 0) as [E|E]; [|lra].
  elim N. revert E. apply Qabs_case; intros; lra.
Qed.

(** Rounding never crosses a double: a double below [y] is below
    [fl y], and a double above [y] is above [fl y]. *)
Lemma fl_ge_double (c y : Q) : isDouble c = true -> c <= y -> c <= fl y.
Proof.
  intros D H.
  destruct (isDouble y) eqn:Dy; [now rewrite fl_double|].
  assert (Ny : ~ y == 0) by (intros E; apply isDouble_zero in E; congruence).
  rewrite fl_formula.
  pose proof (pow2_pos (ulpExponent y)) as P.
  destruct (Z_le_gt_dec (ulpExponent y) (ulpExponent c)) as [Le|Gt].
  - destruct (double_on_coarser_grid c _ D Le) as [z E].
    assert (Hz : inject_Z z <= y / pow2 (ulpExponent y)).
    { rewrite <- E. apply Qmult_le_compat_r; [assumption|].
      apply Qlt_le_weak, Qinv_lt_0_compat, P. }
    apply roundHalfEven_ge_int in Hz. rewrite Zle_Qle in Hz.
    set (u := pow2 (ulpExponent y)) in *.
    assert (Ec : c == inject_Z z * u) by (rewrite <- E; field; lra).
    set (r := inject_Z (roundHalfEven (y / u))) in *. clearbody r u. nra.
  - destruct (Qeq_dec c 0) as [Ec|Nc].
    + (* zero is a whole number of any unit *)
      assert (Hz : inject_Z 0 <= y / pow2 (ulpExponent y)).
      { change (inject_Z 0) with 0. apply Qle_shift_div_l; [assumption|lra]. }
      apply roundHalfEven_ge_int in Hz. rewrite Zle_Qle in Hz.
      set (u := pow2 (ulpExponent y)) in *.
      set (r := inject_Z (roundHalfEven (y / u))) in *.
      change (inject_Z 0) with 0 in Hz. clearbody r u. nra.
    + destruct (binade_bounds c Nc) as [_ Uc].
      destruct (binade_bounds y Ny) as [Ly _].
      unfold ulpExponent in Gt, P |- *.
      set (Ec := floorLog2 (Qabs c)) in *. set (Ey := floorLog2 (Qabs y)) in *.
      assert (Hlt : (Ec + 1 <= Ey)%Z) by lia.
      assert (He : Z.max (Ey - 52) (-1074) = (Ey - 52)%Z) by lia.
      rewrite He in *.
      pose proof (pow2_le _ _ Hlt) as Hp.
      assert (Hy : 0 < y).
      { destruct (Qlt_le_dec 0 y) as [|Hn]; [assumption|].
        rewrite (Qabs_neg y Hn) in Ly.
        assert (c <= 0) by lra. rewrite (Qabs_neg c H0) in Uc. lra. }
      rewrite (Qabs_pos y) in Ly by lra.
      assert (Hk : inject_Z (2 ^ 52) <= y / pow2 (Ey - 52)).
      { rewrite <- pow2_Z by lia. apply Qle_shift_div_l; [assumption|].
        rewrite <- pow2_add. now replace (52 + (Ey - 52))%Z with Ey by lia. }
      apply roundHalfEven_ge_int in Hk. rewrite Zle_Qle in Hk.
      rewrite <- pow2_Z in Hk by lia.
      assert (E52 : pow2 52 * pow2 (Ey - 52) == pow2 Ey).
      { rewrite <- pow2_add. now replace (52 + (Ey - 52))%Z with Ey by lia. }
      pose proof (Qle_Qabs c) as Hc.
      set (r := inject_Z (roundHalfEven (y / pow2 (Ey - 52)))) in *.
      set (u := pow2 (Ey - 52)) in *. set (p52 := pow2 52) in *.
      set (pc := pow2 (Ec + 1)) in *. set (py := pow2 Ey) in *.
      set (ac := Qabs c) in *.
      clearbody r u p52 pc py ac. nra.
Qed.

Lemma fl_le_double (c y : Q) : isDouble c = true -> y <= c -> fl y <= c.
Proof.
  intros D H.
  destruct (isDouble y) eqn:Dy; [now rewrite fl_double|].
  assert (Ny : ~ y == 0) by (intros E; apply isDouble_zero in E; congruence).
  rewrite fl_formula.
  pose proof (pow2_pos (ulpExponent y)) as P.
  destruct (Z_le_gt_dec (ulpExponent y) (ulpExponent c)) as [Le|Gt].
  - destruct (double_on_coarser_grid c _ D Le) as [z E].
    assert (Hz : y / pow2 (ulpExponent y) <= inject_Z z).
    { rewrite <- E. apply Qmult_le_compat_r; [assumption|].
      apply Qlt_le_weak, Qinv_lt_0_compat, P. }
    apply roundHalfEven_le_int in Hz. rewrite Zle_Qle in Hz.
    set (u := pow2 (ulpExponent y)) in *.
    assert (Ec : c == inject_Z z * u) by (rewrite <- E; field; lra).
    set (r := inject_Z (roundHalfEven (y / u))) in *. clearbody r u. nra.
  - destruct (Qeq_dec c 0) as [Ec|Nc].
    + assert (Hz : y / pow2 (ulpExponent y) <= inject_Z 0).
      { change (inject_Z 0) with 0. apply Qle_shift_div_r; [assumption|lra]. }
      apply roundHalfEven_le_int in Hz. rewrite Zle_Qle in Hz.
      set (u := pow2 (ulpExponent y)) in *.
      set (r := inject_Z (roundHalfEven (y / u))) in *.
      change (inject_Z 0) with 0 in Hz. clearbody r u. nra.
    + destruct (binade_bounds c Nc) as [_ Uc].
      destruct (binade_bounds y Ny) as [Ly _].
      unfold ulpExponent in Gt, P |- *.
      set (Ec := floorLog2 (Qabs c)) in *. set (Ey := floorLog2 (Qabs y)) in *.
      assert (Hlt : (Ec + 1 <= Ey)%Z) by lia.
      assert (He : Z.max (Ey - 52) (-1074) = (Ey - 52)%Z) by lia.
      rewrite He in *.
      pose proof (pow2_le _ _ Hlt) as Hp.
      assert (Hy : y < 0).
      { destruct (Qlt_le_dec y 0) as [|Hn]; [assumption|].
        rewrite (Qabs_pos y Hn) in Ly.
        assert (0 <= c) by lra. rewrite (Qabs_pos c H0) in Uc. lra. }
      rewrite (Qabs_neg y) in Ly by lra.
      assert (Hk : y / pow2 (Ey - 52) <= inject_Z (- 2 ^ 52)).
      { rewrite inject_Z_opp, <- pow2_Z by lia.
        apply Qle_shift_div_r; [assumption|].
        assert (E52 : pow2 52 * pow2 (Ey - 52) == pow2 Ey).
        { rewrite <- pow2_add. now replace (52 + (Ey - 52))%Z with Ey by lia. }
        set (u := pow2 (Ey - 52)) in *. set (p52 := pow2 52) in *.
        set (py := pow2 Ey) in *. clearbody u p52 py. nra. }
      apply roundHalfEven_le_int in Hk. rewrite Zle_Qle in Hk.
      rewrite inject_Z_opp, <- pow2_Z in Hk by lia.
      assert (E52 : pow2 52 * pow2 (Ey - 52) == pow2 Ey).
      { rewrite <- pow2_add. now replace (52 + (Ey - 52))%Z with Ey by lia. }
      assert (Hc : - Qabs c <= c).
      { apply Qabs_case; intros; lra. }
      set (r := inject_Z (roundHalfEven (y / pow2 (Ey - 52)))) in *.
      set (u := pow2 (Ey - 52)) in *. set (p52 := pow2 52) in *.
      set (pc := pow2 (Ec + 1)) in *. set (py := pow2 Ey) in *.
      set (ac := Qabs c) in *.
      clearbody r u p52 pc py ac. nra.
Qed.

(** Multiples of a quarter below [2^50] are doubles. *)
Lemma quarterPixel_iff (q : Q) :
  quarterPixel q = true <-> exists z : Z, q * 4 == inject_Z z.
Proof. apply isInteger_iff. Qed.

Lemma quarter_isDouble (q : Q) :
  quarterPixel q = true -> Qabs q <= pow2 50 -> isDouble q = true.
Proof.
  intros G B. apply quarterPixel_iff in G as [z E].
  destruct (Qeq_dec q 0) as [Z0|N]; [now apply isDouble_zero|].
  destruct (binade_bounds q N) as [L _].
  assert (HE : (floorLog2 (Qabs q) <= 50)%Z) by (apply pow2_le_inv; lra).
  unfold isDouble, ulpExponent. apply isInteger_iff.
  set (e := Z.max (floorLog2 (Qabs q) - 52) (-1074)).
  assert (He : (e <= -2)%Z) by lia.
  exists (z * 2 ^ (- e - 2))%Z.
  rewrite inject_Z_mult, <- pow2_Z, <- E by lia.
  rewrite div_pow2.
  assert (E4 : pow2 (- e) == 4 * pow2 (- e - 2)).
  { change 4 with (pow2 2). rewrite <- pow2_add.
    now replace (2 + (- e - 2))%Z with (- e)%Z by lia. }
  rewrite E4. ring.
Qed.

Lemma fl_quarter (q : Q) :
  quarterPixel q = true -> Qabs q <= pow2 50 -> fl q = q.
Proof. intros G B. now apply fl_double, quarter_isDouble. Qed.

(** The rounding error relative to the number rounded, for numbers
    that are not subnormal. *)
Lemma fl_relative (q : Q) :
  pow2 (-1022) <= Qabs q ->
  Qabs (fl q - q) <= Qabs q * pow2 (-53).
Proof.
  intros Hn.
  assert (N : ~ q == 0).
  { intros E. rewrite E in Hn. pose proof (pow2_pos (-1022)).
    change (Qabs 0) with 0 in Hn. lra. }
  destruct (binade_bounds q N) as [L U].
  assert (HE : (-1022 < floorLog2 (Qabs q) + 1)%Z) by (apply pow2_lt_inv; lra).
  pose proof (fl_error q) as He. unfold ulpExponent in He.
  rewrite Z.max_l in He by lia.
  replace (floorLog2 (Qabs q) - 52)%Z
    with (floorLog2 (Qabs q) + (-53) + 1)%Z in He by lia.
  rewrite pow2_succ, pow2_add in He.
  pose proof (pow2_pos (-53)) as P.
  set (u := pow2 (-53)) in *. set (b := pow2 (floorLog2 (Qabs q))) in *.
  clearbody u b.
  assert (E2 : b * u * 2 / 2 == b * u) by field.
  rewrite E2 in He. nra.
Qed.

(** The rounding error of a number of size at most [2^k]. *)
Lemma fl_absolute (q : Q) (k : Z) :
  (-1022 <= k)%Z -> Qabs q <= pow2 k ->
  Qabs (fl q - q) <= pow2 (k - 53).
Proof.
  intros Hk Hq. pose proof (pow2_pos (k - 53)) as P.
  destruct (Qeq_dec q 0) as [Z0|N].
  - rewrite (fl_double q (isDouble_zero q Z0)).
    assert (E : q - q == 0) by ring. rewrite E. change (Qabs 0) with 0. lra.
  - destruct (binade_bounds q N) as [L U].
    assert (HE : (floorLog2 (Qabs q) <= k)%Z) by (apply pow2_le_inv; lra).
    pose proof (fl_error q) as He.
    assert (Hu : pow2 (ulpExponent q) <= pow2 (k - 52))
      by (apply pow2_le; unfold ulpExponent; lia).
    replace (k - 52)%Z with (k - 53 + 1)%Z in Hu by lia.
    rewrite pow2_succ in Hu.
    set (u := pow2 (ulpExponent q)) in *. set (v := pow2 (k - 53)) in *.
    clearbody u v.
    assert (E2 : u / 2 * 2 == u) by field.
    set (d := u / 2) in *. clearbody d. lra.
Qed.

(** Whole numbers below [2^53] are doubles. *)
Lemma isDouble_int (z : Z) :
  (Z.abs z < 2 ^ 53)%Z -> isDouble (inject_Z z) = true.
Proof.
  intros Hz.
  destruct (Qeq_dec (inject_Z z) 0) as [Z0|N]; [now apply isDouble_zero|].
  destruct (binade_bounds (inject_Z z) N) as [L _].
  assert (Ea : Qabs (inject_Z z) == inject_Z (Z.abs z))
    by (unfold Qabs, inject_Z; cbn; reflexivity).
  assert (HE : (floorLog2 (Qabs (inject_Z z)) < 53)%Z).
  { apply pow2_lt_inv.
    apply Qle_lt_trans with (Qabs (inject_Z z)); [exact L|].
    rewrite Ea, (pow2_Z 53) by lia. now rewrite <- Zlt_Qlt. }
  unfold isDouble. apply isInteger_iff.
  set (e := ulpExponent (inject_Z z)).
  destruct (Z_le_gt_dec e 0) as [Hle|Hgt].
  - exists (z * 2 ^ (- e))%Z.
    rewrite inject_Z_mult, <- pow2_Z by lia. rewrite div_pow2. reflexivity.
  - exfalso. subst e. unfold ulpExponent in Hgt. lia.
Qed.

(** On every pair of the sample table, the machine's binary64 division,
    addition, subtraction and multiplication return the value of
    [fl]. *)
Lemma fl_agrees_with_machine_doubles : agreesOnSamples = true.
Proof. vm_compute. reflexivity. Qed.

(** ** The quarter-pixel grid *)

(** On the quarter-pixel grid, up to [2^50], binary64 arithmetic is
    exact: sums and differences of grid values are grid values, and
    [fl] leaves them alone. *)
Lemma fl_grid (q : Q) :
  quarterPixel q = true ->
  - (1125899906842624) <= q <= 1125899906842624 ->
  fl q = q.
Proof.
  intros G [L U]. apply fl_quarter; [assumption|].
  apply Qabs_Qle_condition.
  assert (E : pow2 50 == 1125899906842624) by reflexivity.
  rewrite E. split; assumption.
Qed.

Lemma quarterPixel_plus (a b : Q) :
  quarterPixel a = true -> quarterPixel b = true ->
  quarterPixel (a + b) = true.
Proof.
  intros Ga Gb. apply quarterPixel_iff in Ga as [za Ha], Gb as [zb Hb].
  apply quarterPixel_iff. exists (za + zb)%Z. rewrite inject_Z_plus. lra.
Qed.

Lemma quarterPixel_minus (a b : Q) :
  quarterPixel a = true -> quarterPixel b = true ->
  quarterPixel (a - b) = true.
Proof.
  intros Ga Gb. apply quarterPixel_iff in Ga as [za Ha], Gb as [zb Hb].
  apply quarterPixel_iff. exists (za - zb)%Z.
  unfold Z.sub. rewrite inject_Z_plus, inject_Z_opp. lra.
Qed.

Lemma Qmin_cases (a b : Q) : Qmin a b = a \/ Qmin a b = b.
Proof.
  unfold Qmin, GenericMinMax.gmin. destruct (a ?= b); auto.
Qed.

Lemma Qmax_cases (a b : Q) : Qmax a b = a \/ Qmax a b = b.
Proof.
  unfold Qmax, GenericMinMax.gmax. destruct (a ?= b); auto.
Qed.

Lemma quarterPixel_min (a b : Q) :
  quarterPixel a = true -> quarterPixel b = true ->
  quarterPixel (Qmin a b) = true.
Proof. intros Ga Gb. now destruct (Qmin_cases a b) as [-> | ->]. Qed.

Lemma quarterPixel_max (a b : Q) :
  quarterPixel a = true -> quarterPixel b = true ->
  quarterPixel (Qmax a b) = true.
Proof. intros Ga Gb. now destruct (Qmax_cases a b) as [-> | ->]. Qed.

Lemma quarterPixel_clamp (bound v : Q) :
  quarterPixel bound = true -> quarterPixel v = true ->
  quarterPixel (clampToBounds bound v) = true.
Proof.
  intros Gb Gv. unfold clampToBounds.
  destruct (Qmax_cases 0 (Qmin bound v)) as [-> | ->]; [reflexivity|].
  destruct (Qmin_cases bound v) as [-> | ->]; assumption.
Qed.

(** ** Arithmetic toolkit *)

Lemma Qltb_spec (a b : Q) : BoolSpec (a < b) (b <= a) (a <? b).
Proof.
  unfold Qltb. destruct (a ?= b) eqn:E; constructor.
  - apply Qeq_alt in E. lra.
  - now apply Qlt_alt.
  - apply Qgt_alt in E. lra.
Qed.

Lemma Qgtb_spec (a b : Q) : BoolSpec (b < a) (a <= b) (a >? b).
Proof. unfold Qgtb. apply Qltb_spec. Qed.

(** Replace every [Qmin] / [Qmax] by a fresh variable and its defining
    case split; what is left is linear arithmetic. *)
Ltac split_minmax :=
  repeat match goal with
  | |- context [Qmin ?a ?b] =>
      let m := fresh "m" in
      pose proof (Q.min_spec a b);
      set (m := Qmin a b) in *; clearbody m
  | |- context [Qmax ?a ?b] =>
      let m := fresh "m" in
      pose proof (Q.max_spec a b);
      set (m := Qmax a b) in *; clearbody m
  | H : context [Qmin ?a ?b] |- _ =>
      let m := fresh "m" in
      pose proof (Q.min_spec a b);
      set (m := Qmin a b) in *; clearbody m
  | H : context [Qmax ?a ?b] |- _ =>
      let m := fresh "m" in
      pose proof (Q.max_spec a b);
      set (m := Qmax a b) in *; clearbody m
  end.

Ltac split_tests :=
  repeat match goal with
  | |- context [?a <? ?b] => destruct (Qltb_spec a b)
  | |- context [?a >? ?b] => destruct (Qgtb_spec a b)
  end.

Ltac open_tool s :=
  destruct s as [cw ch x0 y0 x1 y1 d md ox oy];
  unfold cropWidth, cropHeight, setRect in *;
  cbn [cropCanvasWidth cropCanvasHeight cropStartX cropStartY cropEndX
       cropEndY isDragging dragMode dragOffsetX dragOffsetY] in *.

Ltac qarith :=
  split_minmax; unfold minSize, handleSize, maxCanvas in *; lra.

(** A goal [quarterPixel e = true] for a sum or difference [e] of grid
    values. *)
Ltac grid :=
  solve [ repeat first
            [ assumption
            | apply quarterPixel_minus
            | apply quarterPixel_plus
            | apply quarterPixel_min
            | apply quarterPixel_max
            | reflexivity ] ].

(** Removes the innermost rounding of a grid value, or decides the
    next test of the code. *)
Ltac exact_step :=
  match goal with
  | |- context [fl ?q] =>
      lazymatch q with
      | context [fl _] => fail
      | context [if _ then _ else _] => fail
      | _ => rewrite (fl_grid q) by
               (first [ grid | split; unfold minSize, maxCanvas in *; lra ])
      end
  | |- context [if ?a <? ?b then _ else _] =>
      lazymatch a with
      | context [fl _] => fail
      | _ => lazymatch b with
             | context [fl _] => fail
             | _ => destruct (Qltb_spec a b)
             end
      end
  | |- context [if ?a >? ?b then _ else _] =>
      lazymatch a with
      | context [fl _] => fail
      | _ => lazymatch b with
             | context [fl _] => fail
             | _ => destruct (Qgtb_spec a b)
             end
      end
  end.

(** ** Corner and move updates without rounding *)

Lemma clamp_range (bound v : Q) :
  0 <= bound -> 0 <= Qmax 0 (Qmin bound v) <= bound.
Proof. intros H. qarith. Qed.

(** On a grid state whose rectangle lies in the canvas, [updateDrag]
    at a grid point computes without rounding. *)
Lemma updateDrag_exact (s : ImageCropTool) (x y : Q) :
  onGrid s -> rectInBounds s ->
  (isMove (dragMode s) = true -> offsetsOnGrid s) ->
  quarterPixel x = true -> quarterPixel y = true ->
  updateDrag s x y = updateDragIn exactly s x y.
Proof.
  unfold onGrid, rectInBounds, offsetsOnGrid.
  destruct s as [cw ch x0 y0 x1 y1 d md ox oy].
  cbn [cropCanvasWidth cropCanvasHeight cropStartX cropStartY cropEndX
       cropEndY isDragging dragMode dragOffsetX dragOffsetY].
  intros ((Gw & Gh) & (G0 & G1 & G2 & G3) & (Bw & Bh))
         ((A1 & A2 & A3) & B1 & B2 & B3) Ho Gx Gy.
  unfold updateDrag, updateDragIn, moveRectIn, exactly, setRect.
  cbn [cropCanvasWidth cropCanvasHeight cropStartX cropStartY cropEndX
       cropEndY isDragging dragMode dragOffsetX dragOffsetY].
  pose proof (quarterPixel_clamp cw x Gw Gx) as Gcx.
  pose proof (quarterPixel_clamp ch y Gh Gy) as Gcy.
  pose proof (clamp_range cw x ltac:(lra)) as Rx.
  pose proof (clamp_range ch y ltac:(lra)) as Ry.
  unfold clampToBounds in Gcx, Gcy.
  set (cx := Qmax 0 (Qmin cw x)) in *. set (cy := Qmax 0 (Qmin ch y)) in *.
  clearbody cx cy.
  destruct md as [[]|]; try reflexivity;
    try (repeat exact_step; reflexivity).
  destruct (Ho eq_refl) as ((Gox & Goy) & Box & Boy).
  apply Qabs_Qle_condition in Box, Boy.
  repeat exact_step; reflexivity.
Qed.

(** ** Frame facts *)

Lemma updateDrag_dragMode (s : ImageCropTool) (x y : Q) :
  dragMode (updateDrag s x y) = dragMode s.
Proof. destruct s as [w h x0 y0 x1 y1 d [[]|] ox oy]; reflexivity. Qed.

Lemma updateDrag_frame (s : ImageCropTool) (x y : Q) :
  cropCanvasWidth (updateDrag s x y) = cropCanvasWidth s /\
  cropCanvasHeight (updateDrag s x y) = cropCanvasHeight s /\
  isDragging (updateDrag s x y) = isDragging s /\
  dragOffsetX (updateDrag s x y) = dragOffsetX s /\
  dragOffsetY (updateDrag s x y) = dragOffsetY s.
Proof.
  destruct s as [w h x0 y0 x1 y1 d [[]|] ox oy]; repeat split; reflexivity.
Qed.

Lemma updates_dragMode (s : ImageCropTool) (ps : list (Q * Q)) :
  dragMode (updates s ps) = dragMode s.
Proof.
  revert s. induction ps as [|p ps IH]; intros s; [reflexivity|].
  cbn. unfold updates in IH. rewrite IH. apply updateDrag_dragMode.
Qed.

Lemma updates_frame (s : ImageCropTool) (ps : list (Q * Q)) :
  cropCanvasWidth (updates s ps) = cropCanvasWidth s /\
  cropCanvasHeight (updates s ps) = cropCanvasHeight s /\
  isDragging (updates s ps) = isDragging s /\
  dragOffsetX (updates s ps) = dragOffsetX s /\
  dragOffsetY (updates s ps) = dragOffsetY s.
Proof.
  revert s. induction ps as [|p ps IH]; intros s; [now repeat split|].
  cbn. unfold updates in IH.
  destruct (IH (updateDrag s (fst p) (snd p))) as (-> & -> & -> & -> & ->).
  apply updateDrag_frame.
Qed.

Lemma updates_snoc (s : ImageCropTool) (ps : list (Q * Q)) (p : Q * Q) :
  updates s (ps ++ [p]) = updateDrag (updates s ps) (fst p) (snd p).
Proof. unfold updates. now rewrite fold_left_app. Qed.

(** The offsets matter to [updateDrag] in ['move'] mode only. *)
Lemma updateDrag_offsets_only_in_move (s : ImageCropTool) (ox oy x y : Q) :
  dragMode s <> Some move ->
  currentRectangle (updateDrag (setDragOffset s ox oy) x y)
  = currentRectangle (updateDrag s x y).
Proof.
  destruct s as [w h x0 y0 x1 y1 d [[]|] ox' oy']; cbn;
    intros H; try reflexivity. now elim H.
Qed.

Lemma run_mouseMoves (s : ImageCropTool) (ps : list (Q * Q)) :
  run s (mouseMoves ps) = if isDragging s then updates s ps else s.
Proof.
  revert s. induction ps as [|p ps IH]; intros s.
  - now destruct (isDragging s).
  - cbn. unfold run in IH. rewrite IH. unfold onMouseMove.
    destruct (isDragging s) eqn:Hd.
    + destruct (updateDrag_frame s (fst p) (snd p)) as (_ & _ & -> & _).
      now rewrite Hd.
    + now rewrite Hd.
Qed.

(** ** Corner resizes *)

Lemma updateDrag_fixedSides (s : ImageCropTool) (x y : Q) :
  fixedSides (updateDrag s x y) = fixedSides s.
Proof. destruct s as [w h x0 y0 x1 y1 d [[]|] ox oy]; reflexivity. Qed.

Lemma updates_fixedSides (s : ImageCropTool) (ps : list (Q * Q)) :
  fixedSides (updates s ps) = fixedSides s.
Proof.
  revert s. induction ps as [|p ps IH]; intros s; [reflexivity|].
  cbn. unfold updates in IH. rewrite IH. apply updateDrag_fixedSides.
Qed.

Lemma fl_onGridWithin_plus (q : Q) :
  onGridWithin q -> fl (q + minSize) = q + minSize.
Proof.
  intros [G B]. apply Qabs_Qle_condition in B. unfold maxCanvas in B.
  apply fl_grid; [grid | unfold minSize; lra].
Qed.

Lemma fl_onGridWithin_minus (q : Q) :
  onGridWithin q -> fl (q - minSize) = q - minSize.
Proof.
  intros [G B]. apply Qabs_Qle_condition in B. unfold maxCanvas in B.
  apply fl_grid; [grid | unfold minSize; lra].
Qed.

Lemma updateDrag_corner_minSize (s : ImageCropTool) (x y : Q) :
  Forall onGridWithin (fixedSides s) ->
  isCorner (dragMode s) = true ->
  minSize <= cropWidth (updateDrag s x y) /\
  minSize <= cropHeight (updateDrag s x y).
Proof.
  destruct s as [w h x0 y0 x1 y1 d [[]|] ox oy];
    unfold updateDrag, updateDragIn, fixedSides, cropWidth, cropHeight;
    cbn [isCorner dragMode cropStartX cropStartY cropEndX cropEndY
         cropCanvasWidth cropCanvasHeight setRect];
    intros F H; try discriminate;
    inversion F as [|? ? Fa F']; subst; inversion F' as [|? ? Fb F'']; subst;
    rewrite ?(fl_onGridWithin_plus _ Fa), ?(fl_onGridWithin_minus _ Fa),
            ?(fl_onGridWithin_plus _ Fb), ?(fl_onGridWithin_minus _ Fb);
    split; qarith.
Qed.

(** C2, as the code has it.  In a corner mode whose opposite corner
    lies on the quarter-pixel grid (in particular at whole pixels),
    every [updateDrag], with any pointer position, leaves a rectangle
    at least [minSize] = 20 wide and 20 high; so does every non-empty
    run of such updates, whether issued directly or through
    [onMouseMove] while dragging. *)
Theorem corner_resize_keeps_minSize_on_grid :
  forall (s : ImageCropTool) (p : Q * Q) (ps : list (Q * Q)),
    Forall onGridWithin (fixedSides s) ->
    isCorner (dragMode s) = true ->
    minSize == 20 /\
    (minSize <= cropWidth (updates s (p :: ps)) /\
     minSize <= cropHeight (updates s (p :: ps))) /\
    (isDragging s = true ->
     minSize <= cropWidth (onMouseMove s (fst p) (snd p)) /\
     minSize <= cropHeight (onMouseMove s (fst p) (snd p))).
Proof.
  intros s p ps Hg Hc. split; [reflexivity|]. split.
  - destruct (exists_last (l := p :: ps)) as (qs & q & ->); [discriminate|].
    rewrite updates_snoc. apply updateDrag_corner_minSize.
    + now rewrite updates_fixedSides.
    + now rewrite updates_dragMode.
  - intros Hd. unfold onMouseMove. rewrite Hd.
    now apply updateDrag_corner_minSize.
Qed.

Lemma corner_resize_keeps_minSize_on_grid_witness :
  let s := mkTool 400 200 100 50 300 150 true (Some topLeft) 0 0 in
  minSize <= cropWidth (updates s [(350, 150); (1 # 3, 0); (299, 149)]) /\
  minSize <= cropHeight (updates s [(350, 150); (1 # 3, 0); (299, 149)]).
Proof.
  intros s.
  refine (proj1 (proj2 (corner_resize_keeps_minSize_on_grid
                          s (350, 150) [(1 # 3, 0); (299, 149)] _ eq_refl))).
  repeat constructor; vm_compute; discriminate.
Defined.

(** C2, as stated, fails.  On a freshly loaded 400 x 200 image a new
    rectangle is drawn from (12.3, 12.3) to (100, 100) and then grabbed
    by its bottom-right handle; moving the pointer to (0, 0) stores
    12.3 + 20, rounded, as the right and bottom sides.  The sum rounds
    down, and the rectangle is narrower and lower than [minSize]. *)
Lemma corner_resize_below_minSize :
  let t := run (initialTool 300 150)
               [ImageSelect 400 200; MouseDown (fl 12.3) (fl 12.3);
                MouseMove 100 100; MouseUp;
                MouseDown 100 100; MouseMove 0 0] in
  dragMode t = Some bottomRight /\ isDragging t = true /\
  cropStartX t = fl 12.3 /\ cropEndX t = fl (fl 12.3 + minSize) /\
  cropWidth t < minSize /\ cropHeight t < minSize /\
  minSize - cropWidth t == 1 # 281474976710656.
Proof.
  cbv zeta. repeat split; vm_compute; reflexivity.
Qed.

(** ** One update on the grid *)

Lemma forwardOfStart_spec (s : ImageCropTool) (x y : Q) :
  forwardOfStart s x y = true ->
  cropStartX s <= Qmax 0 (Qmin (cropCanvasWidth s) x) /\
  cropStartY s <= Qmax 0 (Qmin (cropCanvasHeight s) y).
Proof.
  unfold forwardOfStart, clampToBounds. intros H.
  apply andb_prop in H as [Hx Hy]. now apply Qle_bool_iff in Hx, Hy.
Qed.

(** What one [updateDrag] at a grid point keeps and establishes. *)
Lemma updateDrag_keeps (s : ImageCropTool) (x y : Q) :
  onGrid s -> rectInBounds s ->
  (isMove (dragMode s) = true -> offsetsOnGrid s) ->
  (isCorner (dragMode s) = true ->
   minSize <= cropWidth s /\ minSize <= cropHeight s) ->
  (isNew (dragMode s) = true -> forwardOfStart s x y = true) ->
  quarterPixel x = true -> quarterPixel y = true ->
  onGrid (updateDrag s x y) /\ rectInBounds (updateDrag s x y) /\
  (isCorner (dragMode s) = true ->
   minSize <= cropWidth (updateDrag s x y) /\
   minSize <= cropHeight (updateDrag s x y)) /\
  (isMove (dragMode s) = true ->
   cropWidth (updateDrag s x y) == cropWidth s /\
   cropHeight (updateDrag s x y) == cropHeight s).
Proof.
  intros Hg Hb Ho Hc Hn Gx Gy.
  rewrite (updateDrag_exact s x y Hg Hb Ho Gx Gy).
  pose proof (fun E => forwardOfStart_spec s x y (Hn E)) as Hf. clear Hn.
  revert Hg Hb Ho Hc Hf. unfold onGrid, rectInBounds, offsetsOnGrid.
  destruct s as [cw ch x0 y0 x1 y1 d md ox oy].
  unfold updateDragIn, moveRectIn, exactly, setRect, cropWidth, cropHeight.
  cbn [cropCanvasWidth cropCanvasHeight cropStartX cropStartY cropEndX
       cropEndY isDragging dragMode dragOffsetX dragOffsetY].
  intros ((Gw & Gh) & (G0 & G1 & G2 & G3) & (Bw & Bh))
         ((A1 & A2 & A3) & B1 & B2 & B3) Ho Hc Hf.
  pose proof (quarterPixel_clamp cw x Gw Gx) as Gcx.
  pose proof (quarterPixel_clamp ch y Gh Gy) as Gcy.
  pose proof (clamp_range cw x ltac:(lra)) as Rx.
  pose proof (clamp_range ch y ltac:(lra)) as Ry.
  unfold clampToBounds in Gcx, Gcy.
  set (cx := Qmax 0 (Qmin cw x)) in *. set (cy := Qmax 0 (Qmin ch y)) in *.
  clearbody cx cy.
  destruct md as [[]|]; cbn [isCorner isMove isNew] in *;
    try (destruct (Hc eq_refl) as [Sw Sh]);
    try (destruct (Ho eq_refl) as ((Gox & Goy) & Box & Boy));
    try (destruct (Hf eq_refl) as [Fx Fy]);
    clear Ho Hc Hf;
    cbn [cropCanvasWidth cropCanvasHeight cropStartX cropStartY cropEndX
         cropEndY isDragging dragMode dragOffsetX dragOffsetY];
    split_tests;
    (split; [repeat split; first [grid | lra]|]);
    (split; [repeat split; qarith|]);
    split; intros E; try discriminate E; split; qarith.
Qed.

(** ** Moving the rectangle *)

Lemma updates_move_keeps (ps : list (Q * Q)) :
  forall s : ImageCropTool,
    dragMode s = Some move ->
    onGrid s -> rectInBounds s -> offsetsOnGrid s ->
    Forall gridPoint ps ->
    onGrid (updates s ps) /\ rectInBounds (updates s ps) /\
    cropWidth (updates s ps) == cropWidth s /\
    cropHeight (updates s ps) == cropHeight s.
Proof.
  induction ps as [|p ps IH]; intros s Hm Hg Hb Ho Hp.
  - repeat split; try assumption; try apply Hg; try apply Hb; reflexivity.
  - inversion Hp as [|? ? [Px Py] Hp']; subst.
    destruct (updateDrag_keeps s (fst p) (snd p) Hg Hb) as (Kg & Kb & _ & Ks);
      try assumption;
      try (rewrite Hm; cbn; intros; first [assumption | discriminate]).
    destruct (Ks ltac:(now rewrite Hm)) as [Kw Kh].
    change (updates s (p :: ps))
      with (updates (updateDrag s (fst p) (snd p)) ps).
    destruct (IH (updateDrag s (fst p) (snd p))) as (Ig & Ib & Iw & Ih);
      try assumption.
    + now rewrite updateDrag_dragMode.
    + unfold offsetsOnGrid in *.
      now destruct (updateDrag_frame s (fst p) (snd p))
        as (_ & _ & _ & -> & ->).
    + repeat split; try apply Ig; try apply Ib.
      * now rewrite Iw.
      * now rewrite Ih.
Qed.

(** C3, as the code has it.  Under ['move'], with the canvas, the
    rectangle, the offsets and the pointer positions on the
    quarter-pixel grid and the rectangle inside the canvas, any run of
    [updateDrag] calls leaves the width and the height as they were and
    leaves the mode alone: only the position changes, and the rectangle
    stays inside the canvas.  The same holds for the positions
    delivered as [mousemove] events.  Each update puts the start corner
    at the clamped pointer minus the offset, clamped in turn between 0
    and the canvas size minus the rectangle's size. *)
Theorem move_preserves_size_on_grid :
  forall (s : ImageCropTool) (ps : list (Q * Q)),
    dragMode s = Some move ->
    onGrid s -> rectInBounds s -> offsetsOnGrid s ->
    Forall gridPoint ps ->
    (cropWidth (updates s ps) == cropWidth s /\
     cropHeight (updates s ps) == cropHeight s) /\
    (cropWidth (run s (mouseMoves ps)) == cropWidth s /\
     cropHeight (run s (mouseMoves ps)) == cropHeight s) /\
    dragMode (updates s ps) = Some move /\
    rectInBounds (updates s ps) /\
    (forall x y : Q,
        gridPoint (x, y) ->
        cropStartX (updateDrag s x y)
        == Qmax 0 (Qmin (cropCanvasWidth s - cropWidth s)
                        (clampToBounds (cropCanvasWidth s) x
                         - dragOffsetX s)) /\
        cropStartY (updateDrag s x y)
        == Qmax 0 (Qmin (cropCanvasHeight s - cropHeight s)
                        (clampToBounds (cropCanvasHeight s) y
                         - dragOffsetY s))).
Proof.
  intros s ps Hm Hg Hb Ho Hp.
  destruct (updates_move_keeps ps s Hm Hg Hb Ho Hp) as (_ & Kb & Kw & Kh).
  split; [now split|]. split.
  { rewrite run_mouseMoves. destruct (isDragging s); [now split|].
    split; reflexivity. }
  split; [now rewrite updates_dragMode|]. split; [assumption|].
  intros x y [Gx Gy]. cbn [fst snd] in Gx, Gy.
  rewrite (updateDrag_exact s x y Hg Hb (fun _ => Ho) Gx Gy).
  destruct Hb as ((A1 & A2 & A3) & B1 & B2 & B3).
  unfold updateDragIn, moveRectIn, exactly, clampToBounds. rewrite Hm.
  open_tool s.
  set (cx := Qmax 0 (Qmin cw x)). set (cy := Qmax 0 (Qmin ch y)).
  clearbody cx cy. split; split_tests; qarith.
Qed.

Lemma move_preserves_size_on_grid_witness :
  let s := mkTool 401 201 100.25 50.25 300.75 150.75 true (Some move)
                  100.5 50 in
  let ps := [(250.75, 100); (900, -40); (3.5, 199.25)] in
  cropWidth (updates s ps) == cropWidth s /\
  cropHeight (updates s ps) == cropHeight s.
Proof.
  intros s ps.
  refine (proj1 (move_preserves_size_on_grid s ps eq_refl _ _ _ _)).
  - repeat split; vm_compute; first [reflexivity | discriminate].
  - repeat split; vm_compute; discriminate.
  - repeat split; vm_compute; first [reflexivity | discriminate].
  - repeat constructor.
Defined.

(** C3, as stated, fails.  On a freshly loaded 401 x 201 image the
    rectangle is 200.5 wide.  A press at (100.3, 100) starts a move, and
    the first pointer position (103.2, 100) already changes the width:
    the new right side is the rounded sum of the new left side and the
    width. *)
Lemma move_changes_size :
  let s := run (initialTool 300 150)
               [ImageSelect 401 201; MouseDown (fl 100.3) 100] in
  let t := run s [MouseMove (fl 103.2) 100] in
  dragMode s = Some move /\ isDragging s = true /\
  cropWidth s == 200.5 /\
  cropWidth t < cropWidth s /\
  cropWidth s - cropWidth t == 1 # 35184372088832.
Proof.
  cbv zeta. repeat split; vm_compute; reflexivity.
Qed.

(** ** Starting a gesture *)

(** C10.  [startDrag] changes the four rectangle fields only when it
    resolves to ['new']: whenever the resulting mode is a corner or
    ['move'] the rectangle is the one it was given.  This carries over to
    [onMouseDown]. *)
Theorem startDrag_rect_unchanged_unless_new :
  forall (s : ImageCropTool) (x y : Q),
    (dragMode (startDrag s x y) <> Some new ->
     currentRectangle (startDrag s x y) = currentRectangle s) /\
    (currentRectangle (startDrag s x y) <> currentRectangle s ->
     dragMode (startDrag s x y) = Some new) /\
    (dragMode (onMouseDown s x y) <> Some new ->
     currentRectangle (onMouseDown s x y) = currentRectangle s).
Proof.
  intros s x y. unfold onMouseDown.
  destruct s as [w h x0 y0 x1 y1 d md ox oy].
  unfold startDrag, startDragIn, currentRectangle, setDragging;
    cbn [cropStartX cropStartY cropEndX cropEndY].
  repeat match goal with
         | |- context [if ?c then _ else _] => destruct c
         end; cbn; repeat split; intros H; try reflexivity;
    solve [now elim H].
Qed.

Lemma startDrag_rect_unchanged_unless_new_witness :
  let s := mkTool 400 200 100 50 300 150 false None 0 0 in
  currentRectangle (startDrag s 200 100) = (100, 50, 300, 150).
Proof.
  intros s.
  apply (proj1 (startDrag_rect_unchanged_unless_new s 200 100)).
  vm_compute. discriminate.
Defined.

(** ** Ending a gesture *)

(** C9.  [onMouseUp] twice is [onMouseUp] once, and it does nothing at
    all when no drag is in progress. *)
Theorem onMouseUp_idempotent :
  forall s : ImageCropTool,
    onMouseUp (onMouseUp s) = onMouseUp s /\
    (isDragging s = false -> onMouseUp s = s) /\
    run s [MouseUp; MouseUp] = run s [MouseUp].
Proof.
  intros [w h x0 y0 x1 y1 d md ox oy]. repeat split.
  cbn. now intros ->.
Qed.

Lemma onMouseUp_idempotent_witness :
  onMouseUp (initialTool 300 150) = initialTool 300 150.
Proof.
  apply (proj1 (proj2 (onMouseUp_idempotent (initialTool 300 150)))).
  reflexivity.
Defined.

(** ** Drawing a new rectangle *)

(** C8.  Under ['new'], [updateDrag] writes the constrained pointer
    position into the end corner and nothing else: the start corner
    stays where [startDrag] put it.  No minimum size is enforced: a
    gesture on a freshly loaded 400 x 200 image that presses at (350, 180)
    and drags to (355, 180) leaves a rectangle 5 wide and 0 high. *)
Theorem new_drag_tracks_pointer :
  forall (s : ImageCropTool) (x y : Q),
    dragMode s = Some new ->
    (cropStartX (updateDrag s x y) = cropStartX s /\
     cropStartY (updateDrag s x y) = cropStartY s /\
     cropEndX (updateDrag s x y) = Qmax 0 (Qmin (cropCanvasWidth s) x) /\
     cropEndY (updateDrag s x y) = Qmax 0 (Qmin (cropCanvasHeight s) y)) /\
    (exists es : list Event,
        let t := run (initialTool 300 150) es in
        dragMode t = Some new /\ isDragging t = true /\
        0 < cropWidth t /\ cropWidth t < minSize /\ cropHeight t == 0).
Proof.
  intros s x y Hm. split.
  - unfold updateDrag, updateDragIn. rewrite Hm. repeat split.
  - exists [ImageSelect 400 200; MouseDown 350 180; MouseMove 355 180].
    vm_compute. repeat split; discriminate.
Qed.

Lemma new_drag_tracks_pointer_witness :
  let s := mkTool 400 200 350 180 350 180 true (Some new) 0 0 in
  cropStartX (updateDrag s 355 500) = 350 /\
  cropStartY (updateDrag s 355 500) = 180 /\
  cropEndX (updateDrag s 355 500) = Qmax 0 (Qmin 400 355) /\
  cropEndY (updateDrag s 355 500) = Qmax 0 (Qmin 200 500).
Proof.
  intros s. exact (proj1 (new_drag_tracks_pointer s 355 500 eq_refl)).
Defined.

(** ** Hit-testing against the specification *)

Lemma startDrag_resolveMode (s : ImageCropTool) (x y : Q) :
  dragMode (startDrag s x y) = Some (resolveMode fl s (x, y)) /\
  (resolveMode fl s (x, y) = new ->
   currentRectangle (startDrag s x y) = (x, y, x, y)) /\
  (resolveMode fl s (x, y) <> new ->
   currentRectangle (startDrag s x y) = currentRectangle s) /\
  (resolveMode fl s (x, y) = move ->
   dragOffsetX (startDrag s x y) = fl (x - cropStartX s) /\
   dragOffsetY (startDrag s x y) = fl (y - cropStartY s)) /\
  (resolveMode fl s (x, y) <> move ->
   dragOffsetX (startDrag s x y) = dragOffsetX s /\
   dragOffsetY (startDrag s x y) = dragOffsetY s).
Proof.
  destruct s as [w h x0 y0 x1 y1 d md ox oy].
  unfold startDrag, startDragIn, resolveMode, hitRules, firstMatch,
    withinTolerance, strictlyInside, nearHandleIn, Qgtb, handleTolerance,
    handleSize, currentRectangle;
    cbn [fst snd cropStartX cropStartY cropEndX cropEndY].
  repeat match goal with
         | |- context [if ?c then _ else _] => destruct c
         end; cbn; repeat split; intros;
    first [reflexivity | congruence].
Qed.

Lemma onGridWithin_minus (a b : Q) :
  onGridWithin a -> onGridWithin b -> fl (a - b) = a - b.
Proof.
  intros [Ga Ba] [Gb Bb]. apply Qabs_Qle_condition in Ba, Bb.
  unfold maxCanvas in *. apply fl_grid; [grid | lra].
Qed.

(** On the grid the computed distances are the exact ones, and the
    code's hit test is the specification's. *)
Lemma resolveMode_on_grid (s : ImageCropTool) (x y : Q) :
  Forall onGridWithin
         [cropStartX s; cropStartY s; cropEndX s; cropEndY s; x; y] ->
  resolveMode fl s (x, y) = resolveMode_spec s (x, y).
Proof.
  intros F.
  repeat match goal with
         | H : Forall _ (_ :: _) |- _ =>
             let a := fresh "G" in
             let b := fresh "F" in
             inversion H as [|? ? a b]; subst; clear H
         end.
  unfold resolveMode_spec, resolveMode, hitRules, firstMatch,
    withinTolerance, exactly; cbn [fst snd].
  now rewrite !onGridWithin_minus.
Qed.

(** C4, as the code has it.  [startDrag] is a first-match hit test: the
    four corner handles in the order top-left, top-right, bottom-left,
    bottom-right, each hit when the computed (binary64) distance of the
    point from the corner is below [handleTolerance] = 10 on both axes,
    then the strict interior (['move'], with the rounded offset of the
    point from the start corner), else ['new'] with the rectangle
    collapsed onto the point.  A hit or an interior press leaves the
    rectangle alone, and only an interior press writes the offsets.
    With the rectangle and the point on the quarter-pixel grid the
    distances and the offset are exact, and the test is the
    specification's.  On the rectangle (100, 50, 300, 150) in a
    400 x 200 canvas, pressing at (10, 10) gives ['new'] and
    (10, 10, 10, 10), and dragging on to (60, 60) gives
    (10, 10, 60, 60). *)
Theorem startDrag_first_match :
  forall (s : ImageCropTool) (x y : Q),
    let t := startDrag s x y in
    let m := resolveMode fl s (x, y) in
    dragMode t = Some m /\
    (withinTolerance fl (x, y) (cropStartX s, cropStartY s) = true ->
     m = topLeft) /\
    (m = new -> currentRectangle t = (x, y, x, y)) /\
    (m <> new -> currentRectangle t = currentRectangle s) /\
    (m = move ->
     dragOffsetX t = fl (x - cropStartX s) /\
     dragOffsetY t = fl (y - cropStartY s)) /\
    (m <> move ->
     dragOffsetX t = dragOffsetX s /\ dragOffsetY t = dragOffsetY s) /\
    (Forall onGridWithin
            [cropStartX s; cropStartY s; cropEndX s; cropEndY s; x; y] ->
     m = resolveMode_spec s (x, y) /\
     (m = move ->
      dragOffsetX t = x - cropStartX s /\
      dragOffsetY t = y - cropStartY s)) /\
    handleTolerance = 10 /\
    (let s0 := mkTool 400 200 100 50 300 150
                      (isDragging s) (dragMode s)
                      (dragOffsetX s) (dragOffsetY s) in
     resolveMode_spec s0 (10, 10) = new /\
     dragMode (startDrag s0 10 10) = Some new /\
     currentRectangle (startDrag s0 10 10) = (10, 10, 10, 10) /\
     currentRectangle (updateDrag (startDrag s0 10 10) 60 60)
     = (10, 10, 60, 60)).
Proof.
  intros s x y t m. subst t m.
  destruct (startDrag_resolveMode s x y) as (Hm & Hn & Hk & Ho & Hf).
  split; [exact Hm|]. split.
  { unfold resolveMode, hitRules, firstMatch. now intros ->. }
  do 4 (split; [assumption|]). split.
  { intros F. split; [now apply resolveMode_on_grid|].
    intros E. destruct (Ho E) as [-> ->].
    inversion F as [|? ? G0 F1]; subst. inversion F1 as [|? ? G1 F2]; subst.
    inversion F2 as [|? ? G2 F3]; subst. inversion F3 as [|? ? G3 F4]; subst.
    inversion F4 as [|? ? Gx F5]; subst. inversion F5 as [|? ? Gy F6]; subst.
    now rewrite !onGridWithin_minus. }
  split; [reflexivity|].
  cbv zeta. repeat split.
Qed.

Lemma startDrag_first_match_witness :
  let s := mkTool 400 200 100 50 300 150 false None 0 0 in
  resolveMode fl s (200, 100) = resolveMode_spec s (200, 100) /\
  (resolveMode fl s (200, 100) = move ->
   dragOffsetX (startDrag s 200 100) = 200 - 100 /\
   dragOffsetY (startDrag s 200 100) = 100 - 50).
Proof.
  intros s.
  refine (proj1 (proj2 (proj2 (proj2 (proj2 (proj2 (proj2
            (startDrag_first_match s 200 100))))))) _).
  repeat constructor; vm_compute; discriminate.
Defined.

(** C4, as stated, fails at the edge of the tolerance.  On a freshly
    loaded 400 x 200 image the top-left handle is dragged to (0.1, 0)
    and released.  A press at (10.1, 0) is then less than 10 away from
    that corner, so the specification's hit test answers top-left; the
    code computes the distance 10.1 - 0.1 as exactly 10, which is not
    below 10, and starts a new rectangle at the press point. *)
Lemma press_at_rounded_tolerance_starts_new :
  let s := run (initialTool 300 150)
               [ImageSelect 400 200; MouseDown 100 50;
                MouseMove (fl 0.1) 0; MouseUp] in
  (cropStartX s = fl 0.1 /\ cropStartY s = 0 /\
   cropEndX s == 300 /\ cropEndY s == 150) /\
  Qabs (fl 10.1 - cropStartX s) < handleTolerance /\
  Qabs (0 - cropStartY s) < handleTolerance /\
  resolveMode_spec s (fl 10.1, 0) = topLeft /\
  fl (fl 10.1 - cropStartX s) == 10 /\
  dragMode (startDrag s (fl 10.1) 0) = Some new /\
  currentRectangle (startDrag s (fl 10.1) 0) = (fl 10.1, 0, fl 10.1, 0).
Proof.
  cbv zeta. repeat split; vm_compute; reflexivity.
Qed.

(** ** Constraining the pointer to the canvas *)

Lemma clampToBounds_range (bound v : Q) :
  0 <= bound -> 0 <= clampToBounds bound v <= bound.
Proof. unfold clampToBounds. intros H. qarith. Qed.

(** C5.  [updateDrag] first replaces the point by its clamp into the
    canvas, [x := max(0, min(width, x))] and likewise [y], and every
    mode works with the clamped point: a corner mode writes the minimum
    or maximum of its size limit and the clamped coordinate, ['new']
    writes the clamped point into the end corner, ['move'] moves by the
    clamped point.  With a canvas 400 wide the abscissa 500 is treated
    as 400: the call gives the same tool, and the right side written by
    ['new'] and, when the minimum size allows it, by the right-hand
    handles is 400. *)
Theorem updateDrag_clamps_point_first :
  forall (s : ImageCropTool) (x y : Q),
    let cx := clampToBounds (cropCanvasWidth s) x in
    let cy := clampToBounds (cropCanvasHeight s) y in
    let t := updateDrag s x y in
    (cx = Qmax 0 (Qmin (cropCanvasWidth s) x) /\
     cy = Qmax 0 (Qmin (cropCanvasHeight s) y)) /\
    (0 <= cropCanvasWidth s -> 0 <= cx <= cropCanvasWidth s) /\
    (0 <= cropCanvasHeight s -> 0 <= cy <= cropCanvasHeight s) /\
    (dragMode s = Some topLeft ->
     cropStartX t = Qmin (fl (cropEndX s - minSize)) cx /\
     cropStartY t = Qmin (fl (cropEndY s - minSize)) cy) /\
    (dragMode s = Some topRight ->
     cropEndX t = Qmax (fl (cropStartX s + minSize)) cx /\
     cropStartY t = Qmin (fl (cropEndY s - minSize)) cy) /\
    (dragMode s = Some bottomLeft ->
     cropStartX t = Qmin (fl (cropEndX s - minSize)) cx /\
     cropEndY t = Qmax (fl (cropStartY s + minSize)) cy) /\
    (dragMode s = Some bottomRight ->
     cropEndX t = Qmax (fl (cropStartX s + minSize)) cx /\
     cropEndY t = Qmax (fl (cropStartY s + minSize)) cy) /\
    (dragMode s = Some new -> cropEndX t = cx /\ cropEndY t = cy) /\
    (dragMode s = Some move ->
     currentRectangle t = currentRectangle (moveRect s cx cy)) /\
    (cropCanvasWidth s = 400 ->
     clampToBounds (cropCanvasWidth s) 500 = 400 /\
     updateDrag s 500 y = updateDrag s 400 y /\
     (dragMode s = Some new -> cropEndX (updateDrag s 500 y) = 400) /\
     (dragMode s = Some topRight \/ dragMode s = Some bottomRight ->
      cropStartX s + minSize <= 400 ->
      cropEndX (updateDrag s 500 y) == 400)).
Proof.
  intros s x y cx cy t. subst cx cy t.
  split; [split; reflexivity|].
  split; [apply clampToBounds_range|].
  split; [apply clampToBounds_range|].
  unfold clampToBounds, updateDrag, updateDragIn.
  do 5 (split; [intros ->; split; reflexivity|]).
  split; [intros ->; reflexivity|].
  intros Hw. rewrite Hw. split; [reflexivity|].
  replace (Qmin 400 500) with (Qmin 400 400) by reflexivity.
  split; [reflexivity|]. split; [now intros ->|].
  intros [-> | ->] Hs; cbn [cropEndX setRect];
    change (Qmax 0 (Qmin 400 400)) with 400;
    (assert (Hl : fl (cropStartX s + minSize) <= 400)
       by (apply fl_le_double; [reflexivity | exact Hs]));
    qarith.
Qed.

Lemma updateDrag_clamps_point_first_witness :
  let s := mkTool 400 200 100 50 300 150 true (Some bottomRight) 0 0 in
  clampToBounds 400 500 = 400 /\ updateDrag s 500 120 = updateDrag s 400 120 /\
  cropEndX (updateDrag s 500 120) == 400.
Proof.
  intros s.
  destruct (proj2 (proj2 (proj2 (proj2 (proj2 (proj2 (proj2 (proj2 (proj2
              (updateDrag_clamps_point_first s 500 120)))))))))
              eq_refl) as (Hc & He & _ & Hr).
  split; [exact Hc|]. split; [exact He|].
  apply Hr; [now right | vm_compute; discriminate].
Defined.

(** ** Loading an image *)

(** C6.  [handleImageSelect] with a positive width and height sets the
    crop area to the centre half of the image: the start corner at a
    quarter and the end corner at three quarters of the size, strictly
    inside the canvas.  For a 400 x 200 image the rectangle is
    (100, 50, 300, 150). *)
Theorem handleImageSelect_centre_half :
  forall (s : ImageCropTool) (w h : Q),
    0 < w -> 0 < h ->
    let t := handleImageSelect s w h in
    (cropCanvasWidth t = w /\ cropCanvasHeight t = h) /\
    currentRectangle t = (w * 0.25, h * 0.25, w * 0.75, h * 0.75) /\
    (0 < cropStartX t /\ cropStartX t < cropEndX t /\ cropEndX t < w) /\
    (0 < cropStartY t /\ cropStartY t < cropEndY t /\ cropEndY t < h) /\
    (w = 400 -> h = 200 ->
     cropStartX t == 100 /\ cropStartY t == 50 /\
     cropEndX t == 300 /\ cropEndY t == 150).
Proof.
  intros s w h Hw Hh t. subst t. unfold handleImageSelect, currentRectangle.
  cbn [setRect setCanvas cropCanvasWidth cropCanvasHeight cropStartX
       cropStartY cropEndX cropEndY].
  repeat split; try lra; subst; reflexivity.
Qed.

Lemma handleImageSelect_centre_half_witness :
  let t := handleImageSelect (initialTool 300 150) 400 200 in
  cropStartX t == 100 /\ cropStartY t == 50 /\
  cropEndX t == 300 /\ cropEndY t == 150.
Proof.
  intros t.
  apply (handleImageSelect_centre_half (initialTool 300 150) 400 200);
    reflexivity.
Defined.

(** ** Resizing from the top-left handle *)

(** C7.  On the rectangle (100, 50, 300, 150) in a 400 x 200 canvas,
    pressing at (100, 50) selects ['topLeft']; dragging to (350, 150)
    then stops the start corner at [cropEndX - minSize] = 280 and
    [cropEndY - minSize] = 130, the values of the two [Math.min]
    formulas, and leaves the end corner alone.  The same gesture right
    after loading a 400 x 200 image ends in the same rectangle. *)
Theorem topLeft_scenario :
  forall (d : bool) (md : option DragMode) (ox oy : Q),
    let s := mkTool 400 200 100 50 300 150 d md ox oy in
    let t := updateDrag (startDrag s 100 50) 350 150 in
    dragMode (startDrag s 100 50) = Some topLeft /\
    currentRectangle t = (280, 130, 300, 150) /\
    cropStartX t = Qmin (cropEndX s - minSize) 350 /\
    cropStartY t = Qmin (cropEndY s - minSize) 150 /\
    cropEndX s - minSize = 280 /\ cropEndY s - minSize = 130 /\
    (let u := run (handleImageSelect s 400 200)
                  [MouseDown 100 50; MouseMove 350 150] in
     dragMode u = Some topLeft /\
     cropStartX u == 280 /\ cropStartY u == 130 /\
     cropEndX u == 300 /\ cropEndY u == 150).
Proof. intros d md ox oy. repeat split. Qed.

(** ** The rectangle invariant *)












(** The size condition on the image is needed: on a 30 x 100 image the
    centre half is 15 wide; moved against the right edge and then
    resized from its bottom-right handle, its right side is pushed out
    to 35 by the minimum-size rule. *)
Lemma small_image_resize_leaves_bounds :
  let es := [ImageSelect 30 100; MouseDown 15 50; MouseMove 30 50; MouseUp;
             MouseDown 30 75; MouseMove 30 75] in
  let t := run (initialTool 300 150) es in
  cropEndX t == 35 /\ cropCanvasWidth t = 30 /\ ~ rectInBounds t.
Proof.
  cbv zeta. split; [vm_compute; reflexivity|]. split; [reflexivity|].
  unfold rectInBounds, not. intros ((_ & _ & H) & _).
  vm_compute in H. now apply H.
Qed.

(** The size condition on a corner press is needed: a new rectangle
    drawn from (0, 0) to (5, 5) and then grabbed by its top-left handle
    has its left side put at 5 - 20 by the minimum-size rule. *)
Lemma small_rectangle_resize_leaves_bounds :
  let es := [ImageSelect 400 200; MouseDown 0 0; MouseMove 5 5; MouseUp;
             MouseDown 0 0; MouseMove 0 0] in
  let t := run (initialTool 300 150) es in
  dragMode t = Some topLeft /\ cropStartX t == -15 /\ ~ rectInBounds t.
Proof.
  cbv zeta. split; [reflexivity|]. split; [vm_compute; reflexivity|].
  unfold rectInBounds, not. intros ((H & _) & _).
  vm_compute in H. now apply H.
Qed.

(** The grid condition is needed: on a 400 x 40 image a move through
    the pointer positions (200, 22.3) and (200, -5) leaves a rectangle
    whose bottom side is the rounded difference of two rounded sums, a
    little less than 20; the top-right handle then puts the top side
    20 above it, at a small negative number.  No press starts a new
    rectangle. *)
Lemma move_rounding_leaves_bounds :
  let es := [ImageSelect 400 40; MouseDown 200 20;
             MouseMove 200 (fl 22.3); MouseMove 200 (-5); MouseUp;
             MouseDown 300 0; MouseMove 300 0] in
  let t := run (initialTool 300 150) es in
  dragMode (run (initialTool 300 150) (firstn 2 es)) = Some move /\
  dragMode t = Some topRight /\
  cropStartY t == - (1 # 281474976710656) /\ ~ rectInBounds t.
Proof.
  cbv zeta. split; [vm_compute; reflexivity|].
  split; [vm_compute; reflexivity|].
  split; [vm_compute; reflexivity|].
  unfold rectInBounds, not. intros (_ & H & _).
  vm_compute in H. now apply H.
Qed.

(** * Further properties of the crop tool *)

(** ** Pointer moves without a press *)

(** While no drag is in progress, [onMouseMove] events change nothing,
    however many arrive: after a release the tool stays as it is until
    the next press or image load. *)
Theorem mouse_moves_ignored_when_not_dragging :
  forall (s : ImageCropTool) (ps : list (Q * Q)),
    isDragging s = false ->
    run s (mouseMoves ps) = s /\
    run (onMouseUp s) (mouseMoves ps) = onMouseUp s.
Proof.
  intros s ps Hd. rewrite !run_mouseMoves. rewrite Hd. split; reflexivity.
Qed.

Lemma mouse_moves_ignored_when_not_dragging_witness :
  let s := mkTool 400 200 100 50 300 150 false (Some move) 100 50 in
  run s (mouseMoves [(250, 100); (0, 0)]) = s.
Proof.
  intros s.
  exact (proj1 (mouse_moves_ignored_when_not_dragging
                  s [(250, 100); (0, 0)] eq_refl)).
Defined.

(** ** Repeating a pointer position *)

(** In every mode but ['move'], [updateDrag] is idempotent: a second
    call with the same point gives the same tool as the first.  In
    ['move'] it is not: the width is read back from the rounded corners
    at each call, and a repeated pointer position can shift the
    rectangle by a unit in the last place. *)
Theorem updateDrag_idempotent_unless_move :
  forall (s : ImageCropTool) (x y : Q),
    (dragMode s <> Some move ->
     updateDrag (updateDrag s x y) x y = updateDrag s x y) /\
    (let s1 := startDrag (mkTool 600 400 0 100 (fl 100.7) 300
                                 (isDragging s) None 0 0) 0.5 200 in
     let p := fl 499.8 + (1 # 17592186044416) in
     dragMode s1 = Some move /\ isDouble p = true /\
     cropStartX (updateDrag s1 p 200)
     < cropStartX (updateDrag (updateDrag s1 p 200) p 200)).
Proof.
  intros s x y. split.
  - destruct s as [w h x0 y0 x1 y1 d [[]|] ox oy]; intros H;
      try reflexivity. now elim H.
  - cbv zeta. repeat split; vm_compute; reflexivity.
Qed.

Lemma updateDrag_idempotent_unless_move_witness :
  let s := mkTool 400 200 100 50 300 150 true (Some topLeft) 0 0 in
  updateDrag (updateDrag s 12.3 500) 12.3 500 = updateDrag s 12.3 500.
Proof.
  intros s.
  apply (proj1 (updateDrag_idempotent_unless_move s 12.3 500)).
  discriminate.
Defined.

(** ** Moving: the rectangle sticks to the pointer *)

Lemma startDrag_move_inv (s : ImageCropTool) (x y : Q) :
  dragMode (startDrag s x y) = Some move ->
  startDrag s x y
  = setDragOffset (setDragMode s move)
                  (fl (x - cropStartX s)) (fl (y - cropStartY s))
  /\ (cropStartX s < x /\ x < cropEndX s)
  /\ (cropStartY s < y /\ y < cropEndY s).
Proof.
  unfold startDrag, startDragIn.
  repeat match goal with
         | |- context [if nearHandleIn fl ?a ?b && nearHandleIn fl ?c ?e
                       then _ else _] =>
             destruct (nearHandleIn fl a b && nearHandleIn fl c e)
         end; cbn [dragMode setDragMode]; try discriminate.
  destruct (Qgtb_spec x (cropStartX s)), (Qltb_spec x (cropEndX s)),
    (Qgtb_spec y (cropStartY s)), (Qltb_spec y (cropEndY s));
    cbn [andb dragMode setRect setDragMode setDragOffset];
    try discriminate.
  intros _. repeat split; assumption.
Qed.

(** A press resolves to ['move'] only strictly inside the rectangle.
    The recorded offset is the rounded distance of the point from the
    start corner: it is never negative, and never larger than a width
    or height that is itself a double (it can be equal to it).  On an
    empty or inverted rectangle no press ever starts a move. *)
Theorem move_press_offset_inside :
  forall (s : ImageCropTool) (x y : Q),
    (dragMode (startDrag s x y) = Some move ->
     ((cropStartX s < x /\ x < cropEndX s) /\
      (cropStartY s < y /\ y < cropEndY s)) /\
     (dragOffsetX (startDrag s x y) = fl (x - cropStartX s) /\
      dragOffsetY (startDrag s x y) = fl (y - cropStartY s)) /\
     (0 <= dragOffsetX (startDrag s x y) /\
      0 <= dragOffsetY (startDrag s x y)) /\
     (isDouble (cropWidth s) = true ->
      dragOffsetX (startDrag s x y) <= cropWidth s) /\
     (isDouble (cropHeight s) = true ->
      dragOffsetY (startDrag s x y) <= cropHeight s)) /\
    (cropWidth s <= 0 \/ cropHeight s <= 0 ->
     dragMode (startDrag s x y) <> Some move).
Proof.
  intros s x y. split.
  - intros Hm. destruct (startDrag_move_inv s x y Hm) as (-> & Hx & Hy).
    unfold cropWidth, cropHeight. cbn [dragOffsetX dragOffsetY setDragOffset].
    split; [now split|]. split; [now split|]. split; [|split].
    + split; apply fl_ge_double; first [reflexivity | lra].
    + intros D. apply fl_le_double; [assumption | lra].
    + intros D. apply fl_le_double; [assumption | lra].
  - intros Hdeg Hm. destruct (startDrag_move_inv s x y Hm) as (_ & Hx & Hy).
    unfold cropWidth, cropHeight in Hdeg. lra.
Qed.

Lemma move_press_offset_inside_witness :
  let s := mkTool 400 200 100 50 300 150 false None 0 0 in
  (0 <= dragOffsetX (startDrag s 200 100) /\
   0 <= dragOffsetY (startDrag s 200 100)) /\
  dragOffsetX (startDrag s 200 100) <= cropWidth s.
Proof.
  intros s.
  destruct (proj1 (move_press_offset_inside s 200 100) eq_refl)
    as (_ & _ & H0 & Hw & _).
  split; [exact H0 | apply Hw; reflexivity].
Defined.

(** On the quarter-pixel grid, a press inside the rectangle followed by
    a pointer move to a point of the canvas translates the rectangle by
    the pointer's displacement, as long as the translated rectangle is
    still inside the canvas. *)
Theorem move_follows_pointer_on_grid :
  forall (s : ImageCropTool) (px py qx qy : Q),
    onGrid s -> rectInBounds s ->
    gridPoint (px, py) -> gridPoint (qx, qy) ->
    dragMode (startDrag s px py) = Some move ->
    0 <= qx <= cropCanvasWidth s ->
    0 <= qy <= cropCanvasHeight s ->
    0 <= cropStartX s + (qx - px) ->
    cropEndX s + (qx - px) <= cropCanvasWidth s ->
    0 <= cropStartY s + (qy - py) ->
    cropEndY s + (qy - py) <= cropCanvasHeight s ->
    let t := updateDrag (startDrag s px py) qx qy in
    cropStartX t == cropStartX s + (qx - px) /\
    cropStartY t == cropStartY s + (qy - py) /\
    cropEndX t == cropEndX s + (qx - px) /\
    cropEndY t == cropEndY s + (qy - py).
Proof.
  intros s px py qx qy Hg Hb [Gpx Gpy] [Gqx Gqy] Hm Hqx Hqy
         Hx0 Hx1 Hy0 Hy1 t. subst t.
  destruct (startDrag_move_inv s px py Hm) as (-> & Hx & Hy).
  cbn [fst snd] in *.
  assert (Ex : fl (px - cropStartX s) = px - cropStartX s).
  { destruct Hg as (_ & (G0 & _) & (Bw & _)).
    destruct Hb as ((A1 & A2 & A3) & _). unfold maxCanvas in *.
    apply fl_grid; [grid | lra]. }
  assert (Ey : fl (py - cropStartY s) = py - cropStartY s).
  { destruct Hg as (_ & (_ & G1 & _) & (_ & Bh)).
    destruct Hb as (_ & B1 & B2 & B3). unfold maxCanvas in *.
    apply fl_grid; [grid | lra]. }
  rewrite Ex, Ey. rewrite updateDrag_exact; try assumption.
  - destruct s as [w h x0 y0 x1 y1 d md ox oy].
    unfold updateDragIn, moveRectIn, exactly, setRect, setDragOffset,
      setDragMode.
    cbn [cropCanvasWidth cropCanvasHeight cropStartX cropStartY cropEndX
         cropEndY isDragging dragMode dragOffsetX dragOffsetY] in *.
    set (cx := Qmax 0 (Qmin w qx)). set (cy := Qmax 0 (Qmin h qy)).
    assert (Ecx : cx == qx) by (subst cx; qarith).
    assert (Ecy : cy == qy) by (subst cy; qarith).
    clearbody cx cy. split_tests; repeat split; lra.
  - intros _. unfold offsetsOnGrid. cbn [dragOffsetX dragOffsetY setDragOffset].
    destruct Hg as (_ & (G0 & G1 & _) & (Bw & Bh)).
    destruct Hb as ((A1 & A2 & A3) & B1 & B2 & B3). unfold maxCanvas in *.
    repeat split; try grid; apply Qabs_Qle_condition; split; lra.
Qed.

Lemma move_follows_pointer_on_grid_witness :
  let s := mkTool 400 200 100 50 300 150 false None 0 0 in
  let t := updateDrag (startDrag s 200.25 100) 250 100.5 in
  cropStartX t == cropStartX s + (250 - 200.25) /\
  cropStartY t == cropStartY s + (100.5 - 100) /\
  cropEndX t == cropEndX s + (250 - 200.25) /\
  cropEndY t == cropEndY s + (100.5 - 100).
Proof.
  intros s.
  apply (move_follows_pointer_on_grid s 200.25 100 250 100.5);
    try (repeat split; vm_compute; first [reflexivity | discriminate]).
Defined.

(** ** Drawing a new rectangle down and to the right *)

Lemma startDrag_new_inv (s : ImageCropTool) (x y : Q) :
  dragMode (startDrag s x y) = Some new ->
  startDrag s x y = setRect (setDragMode s new) x y x y.
Proof.
  unfold startDrag, startDragIn.
  repeat match goal with
         | |- context [if ?c then _ else _] => destruct c
         end; cbn [dragMode setDragMode setDragOffset setRect];
    intros H; first [discriminate | reflexivity].
Qed.

(** A press on the canvas that starts a new selection, followed by a
    pointer move to a point that is not to the left of nor above the
    press, leaves a normalised rectangle inside the canvas: the press
    point and the clamped pointer are its two corners. *)
Theorem new_drag_forward_in_bounds :
  forall (s : ImageCropTool) (px py qx qy : Q),
    dragMode (startDrag s px py) = Some new ->
    0 <= px <= cropCanvasWidth s ->
    0 <= py <= cropCanvasHeight s ->
    px <= qx -> py <= qy ->
    let t := updateDrag (startDrag s px py) qx qy in
    currentRectangle t
    = (px, py, Qmax 0 (Qmin (cropCanvasWidth s) qx),
               Qmax 0 (Qmin (cropCanvasHeight s) qy)) /\
    rectInBounds t.
Proof.
  intros s px py qx qy Hm Hpx Hpy Hx Hy t. subst t.
  rewrite (startDrag_new_inv s px py Hm).
  destruct s as [w h x0 y0 x1 y1 d md ox oy].
  unfold updateDrag, updateDragIn, rectInBounds, currentRectangle, setRect,
    setDragMode.
  cbn [cropCanvasWidth cropCanvasHeight cropStartX cropStartY cropEndX
       cropEndY isDragging dragMode dragOffsetX dragOffsetY] in *.
  split; [reflexivity|]. repeat split; qarith.
Qed.

Lemma new_drag_forward_in_bounds_witness :
  let s := mkTool 400 200 100 50 300 150 false None 0 0 in
  rectInBounds (updateDrag (startDrag s 10 10) 500 60).
Proof.
  intros s.
  apply (new_drag_forward_in_bounds s 10 10 500 60);
    vm_compute; first [reflexivity | discriminate | split; discriminate].
Defined.

(** ** Resizing: the dragged corner and the opposite corner *)

(** In each corner mode [updateDrag] never writes the opposite corner,
    and the dragged corner lands exactly on the clamped pointer whenever
    that leaves the rectangle at least [minSize] wide and high.  The
    clamped pointer is a double, as every JavaScript number is; the
    rounded size limit is then on the same side of it as the exact
    one. *)
Theorem corner_follows_pointer :
  forall (s : ImageCropTool) (x y : Q),
    let cx := Qmax 0 (Qmin (cropCanvasWidth s) x) in
    let cy := Qmax 0 (Qmin (cropCanvasHeight s) y) in
    let t := updateDrag s x y in
    isDouble cx = true -> isDouble cy = true ->
    (dragMode s = Some topLeft ->
     (cropEndX t = cropEndX s /\ cropEndY t = cropEndY s) /\
     (cx <= cropEndX s - minSize -> cropStartX t == cx) /\
     (cy <= cropEndY s - minSize -> cropStartY t == cy)) /\
    (dragMode s = Some topRight ->
     (cropStartX t = cropStartX s /\ cropEndY t = cropEndY s) /\
     (cropStartX s + minSize <= cx -> cropEndX t == cx) /\
     (cy <= cropEndY s - minSize -> cropStartY t == cy)) /\
    (dragMode s = Some bottomLeft ->
     (cropEndX t = cropEndX s /\ cropStartY t = cropStartY s) /\
     (cx <= cropEndX s - minSize -> cropStartX t == cx) /\
     (cropStartY s + minSize <= cy -> cropEndY t == cy)) /\
    (dragMode s = Some bottomRight ->
     (cropStartX t = cropStartX s /\ cropStartY t = cropStartY s) /\
     (cropStartX s + minSize <= cx -> cropEndX t == cx) /\
     (cropStartY s + minSize <= cy -> cropEndY t == cy)).
Proof.
  intros s x y cx cy t Dx Dy. subst t. unfold updateDrag, updateDragIn.
  fold cx cy. clearbody cx cy.
  repeat split; intros; rewrite H in *;
    cbn [setRect cropStartX cropStartY cropEndX cropEndY];
    try reflexivity;
    match goal with
    | H : ?c <= ?e - minSize |- Qmin (fl (?e - minSize)) ?c == ?c =>
        pose proof (fl_ge_double c (e - minSize) ltac:(assumption) H)
    | H : ?e + minSize <= ?c |- Qmax (fl (?e + minSize)) ?c == ?c =>
        pose proof (fl_le_double c (e + minSize) ltac:(assumption) H)
    end; qarith.
Qed.

Lemma corner_follows_pointer_witness :
  let s := mkTool 400 200 100 50 300 150 true (Some bottomRight) 0 0 in
  cropEndX (updateDrag s 380 500) == 380 /\
  cropEndY (updateDrag s 380 500) == 200.
Proof.
  intros s.
  destruct (proj2 (proj2 (proj2 (corner_follows_pointer s 380 500
                                   eq_refl eq_refl))) eq_refl)
    as (_ & Hx & Hy).
  split; [apply Hx | apply Hy]; vm_compute; discriminate.
Defined.

(** * Properties of the other image tools *)

(** ** Rounding *)

Lemma MathRound_spec (q : Q) :
  inject_Z (MathRound q) <= q + (1 # 2) /\
  q + (1 # 2) < inject_Z (MathRound q) + 1.
Proof.
  unfold MathRound. split; [apply Qfloor_le|].
  pose proof (Qlt_floor (q + (1 # 2))) as H.
  rewrite inject_Z_plus in H. exact H.
Qed.

Lemma inject_Z_pos (z : Z) : (0 < z)%Z -> 0 < inject_Z z.
Proof. intros H. change 0 with (inject_Z 0). now rewrite <- Zlt_Qlt. Qed.

(** The computed value of [a * (m / b)], for whole numbers
    [a <= b <= maxImageSide] and [m <= 1024]: it is within [2^-41] of
    the exact quotient. *)
Lemma scaled_side_error (a m b : Z) (p : Q) :
  (0 <= a <= b)%Z -> (0 < m <= 1024)%Z -> (0 < b <= maxImageSide)%Z ->
  p == inject_Z a * fl (inject_Z m / inject_Z b) ->
  exists t : Q,
    t * inject_Z b == inject_Z (a * m) /\
    0 <= t <= inject_Z m /\
    Qabs (fl p - t) <= 1 # 2199023255552.
Proof.
  intros Ha Hm Hb Ep. unfold maxImageSide in Hb.
  assert (HA : 0 <= inject_Z a <= inject_Z b).
  { split; [change 0 with (inject_Z 0)|]; rewrite <- Zle_Qle; lia. }
  assert (HM : 1 <= inject_Z m <= 1024).
  { split; [change 1 with (inject_Z 1) | change 1024 with (inject_Z 1024)];
      rewrite <- Zle_Qle; lia. }
  assert (HB : 1 <= inject_Z b <= 4294967296).
  { split; [change 1 with (inject_Z 1)
           | change 4294967296 with (inject_Z 4294967296)];
      rewrite <- Zle_Qle; lia. }
  rewrite inject_Z_mult.
  set (A := inject_Z a) in *. set (M := inject_Z m) in *.
  set (B := inject_Z b) in *. clearbody A M B.
  set (q1 := M / B) in *.
  assert (E1 : q1 * B == M) by (subst q1; field; lra).
  assert (P1 : 0 < q1) by nra.
  assert (L1 : (1 # 4294967296) <= q1) by nra.
  assert (R1 : Qabs (fl q1 - q1) <= q1 * (1 # 9007199254740992)).
  { pose proof (fl_relative q1) as H.
    rewrite (Qabs_pos q1) in H by lra.
    assert (E : pow2 (-53) == 1 # 9007199254740992) by reflexivity.
    rewrite E in H. apply H.
    apply Qle_trans with (pow2 (-32)); [apply pow2_le; lia|].
    assert (E' : pow2 (-32) == 1 # 4294967296) by reflexivity.
    rewrite E'. exact L1. }
  apply Qabs_Qle_condition in R1.
  set (s := fl q1) in *. clearbody s.
  exists (A * q1). split; [rewrite <- E1; ring|].
  assert (T : 0 <= A * q1 <= M) by nra.
  split; [exact T|].
  assert (Ps : - (1 # 8796093022208) <= p - A * q1 <= 1 # 8796093022208)
    by nra.
  assert (R2 : Qabs (fl p - p) <= 1 # 4398046511104).
  { pose proof (fl_absolute p 11 ltac:(lia)) as H.
    assert (E : pow2 (11 - 53) == 1 # 4398046511104) by reflexivity.
    rewrite E in H. apply H.
    assert (E' : pow2 11 == 2048) by reflexivity. rewrite E'.
    apply Qabs_Qle_condition. split; lra. }
  apply Qabs_Qle_condition in R2. apply Qabs_Qle_condition.
  set (v := fl p) in *. clearbody v. split; lra.
Qed.

(** What [Math.round (a * (m / b))] is, in integers, when computed in
    binary64: a whole number [r] with
    [2 * a * m - b <= 2 * r * b <= 2 * a * m + b]. *)
Lemma MathRound_scaled (a m b : Z) :
  (0 <= a <= b)%Z -> (0 < m <= 1024)%Z -> (0 < b <= maxImageSide)%Z ->
  let r := MathRound (fl (inject_Z a * fl (inject_Z m / inject_Z b))) in
  (2 * r * b - b <= 2 * a * m <= 2 * r * b + b)%Z.
Proof.
  intros Ha Hm Hb r. subst r.
  destruct (scaled_side_error a m b _ Ha Hm Hb (Qeq_refl _))
    as (t & Et & _ & Hv).
  unfold maxImageSide in Hb.
  set (v := fl (inject_Z a * fl (inject_Z m / inject_Z b))) in *.
  clearbody v. apply Qabs_Qle_condition in Hv.
  destruct (MathRound_spec v) as [Hl Hu].
  set (r := MathRound v) in *. clearbody r.
  assert (HB : 1 <= inject_Z b <= 4294967296).
  { split; [change 1 with (inject_Z 1)
           | change 4294967296 with (inject_Z 4294967296)];
      rewrite <- Zle_Qle; lia. }
  assert (D : - (1 # 4) <= (v - t) * inject_Z b <= 1 # 4) by nra.
  assert (U : inject_Z (2 * r * b) < inject_Z (2 * a * m + b + 1)).
  { rewrite !inject_Z_plus, !inject_Z_mult.
    rewrite inject_Z_mult in Et. change (inject_Z 2) with 2.
    change (inject_Z 1) with 1. nra. }
  assert (L : inject_Z (2 * a * m) < inject_Z (2 * r * b + b + 1)).
  { rewrite !inject_Z_plus, !inject_Z_mult.
    rewrite inject_Z_mult in Et. change (inject_Z 2) with 2.
    change (inject_Z 1) with 1. nra. }
  rewrite <- Zlt_Qlt in U, L. lia.
Qed.

(** ** The preview canvas of [resizeImageForPreview] *)

(** For an image whose sides are at most [maxImageSide], the preview
    canvas never exceeds 800 in either direction and never exceeds the
    image; an image that already fits keeps its size. *)
Theorem resizeImageForPreview_fits :
  forall w h : Z,
    (0 <= w <= maxImageSide)%Z -> (0 <= h <= maxImageSide)%Z ->
    let '(w', h') := resizeImageForPreview w h in
    (0 <= w' <= MAX_PREVIEW_SIZE)%Z /\
    (0 <= h' <= MAX_PREVIEW_SIZE)%Z /\
    (w' <= w)%Z /\ (h' <= h)%Z /\
    ((w <= MAX_PREVIEW_SIZE)%Z -> (h <= MAX_PREVIEW_SIZE)%Z ->
     (w', h') = (w, h)).
Proof.
  intros w h Hw Hh. unfold resizeImageForPreview, MAX_PREVIEW_SIZE.
  destruct (Z.gtb_spec w h) as [Hwh|Hwh].
  - destruct (Z.gtb_spec w 800) as [Hbig|Hsmall].
    + pose proof (MathRound_scaled h 800 w ltac:(lia) ltac:(lia) ltac:(lia))
        as R.
      cbv zeta in R.
      set (r := MathRound _) in *. clearbody r.
      repeat split; try lia; try nia.
    + repeat split; lia.
  - destruct (Z.gtb_spec h 800) as [Hbig|Hsmall].
    + pose proof (MathRound_scaled w 800 h ltac:(lia) ltac:(lia) ltac:(lia))
        as R.
      cbv zeta in R.
      set (r := MathRound _) in *. clearbody r.
      repeat split; try lia; try nia.
    + repeat split; lia.
Qed.

Lemma resizeImageForPreview_fits_witness :
  let '(w', h') := resizeImageForPreview 1856 145 in
  (0 <= w' <= MAX_PREVIEW_SIZE)%Z /\
  (0 <= h' <= MAX_PREVIEW_SIZE)%Z /\
  (w' <= 1856)%Z /\ (h' <= 145)%Z /\
  ((1856 <= MAX_PREVIEW_SIZE)%Z -> (145 <= MAX_PREVIEW_SIZE)%Z ->
   (w', h') = (1856, 145)%Z).
Proof.
  apply (resizeImageForPreview_fits 1856 145); unfold maxImageSide; lia.
Defined.

(** The preview keeps the aspect ratio up to the rounding of one side:
    the cross products of old and new sizes differ by at most half the
    longer side of the image.  When the exact height ends in one half
    the binary64 product can fall on either side of it: a 1856 x 145
    image gets a preview 62 high, where the exact 62.5 would round to
    63. *)
Theorem resizeImageForPreview_aspect :
  forall w h : Z,
    (0 <= w <= maxImageSide)%Z -> (0 <= h <= maxImageSide)%Z ->
    (let '(w', h') := resizeImageForPreview w h in
     (2 * Z.abs (h' * w - w' * h) <= Z.max w h)%Z) /\
    resizeImageForPreview 1856 145 = (800, 62)%Z.
Proof.
  intros w h Hw Hh. split; [|vm_compute; reflexivity].
  unfold resizeImageForPreview, MAX_PREVIEW_SIZE.
  destruct (Z.gtb_spec w h) as [Hwh|Hwh].
  - destruct (Z.gtb_spec w 800) as [Hbig|Hsmall].
    + pose proof (MathRound_scaled h 800 w ltac:(lia) ltac:(lia) ltac:(lia))
        as R.
      cbv zeta in R.
      set (r := MathRound _) in *. clearbody r. lia.
    + lia.
  - destruct (Z.gtb_spec h 800) as [Hbig|Hsmall].
    + pose proof (MathRound_scaled w 800 h ltac:(lia) ltac:(lia) ltac:(lia))
        as R.
      cbv zeta in R.
      set (r := MathRound _) in *. clearbody r. lia.
    + lia.
Qed.

Lemma resizeImageForPreview_aspect_witness :
  let '(w', h') := resizeImageForPreview 1000 333 in
  (2 * Z.abs (h' * 1000 - w' * 333) <= Z.max 1000 333)%Z.
Proof.
  apply (resizeImageForPreview_aspect 1000 333); unfold maxImageSide; lia.
Defined.

(** A landscape image wider than 800 gets a preview of height 0 when it
    is more than 1600 times as wide as it is high, and a preview of
    positive height when it is less than 1600 times as wide; likewise
    for a portrait image.  A preview with a side of 0 is an empty
    canvas. *)
Theorem resizeImageForPreview_empty_side :
  forall w h : Z,
    (0 < w <= maxImageSide)%Z -> (0 < h <= maxImageSide)%Z ->
    ((h < w)%Z -> (MAX_PREVIEW_SIZE < w)%Z ->
     ((1600 * h < w)%Z -> snd (resizeImageForPreview w h) = 0%Z) /\
     ((w < 1600 * h)%Z -> (0 < snd (resizeImageForPreview w h))%Z)) /\
    ((w <= h)%Z -> (MAX_PREVIEW_SIZE < h)%Z ->
     ((1600 * w < h)%Z -> fst (resizeImageForPreview w h) = 0%Z) /\
     ((h < 1600 * w)%Z -> (0 < fst (resizeImageForPreview w h))%Z)).
Proof.
  intros w h Hw Hh. unfold resizeImageForPreview, MAX_PREVIEW_SIZE. split.
  - intros Hwh Hbig.
    destruct (Z.gtb_spec w h); [|lia]. destruct (Z.gtb_spec w 800); [|lia].
    pose proof (MathRound_scaled h 800 w ltac:(lia) ltac:(lia) ltac:(lia))
      as R.
    cbv zeta in R. cbn [snd].
    set (r := MathRound _) in *. clearbody r. split; intros; nia.
  - intros Hwh Hbig.
    destruct (Z.gtb_spec w h); [lia|]. destruct (Z.gtb_spec h 800); [|lia].
    pose proof (MathRound_scaled w 800 h ltac:(lia) ltac:(lia) ltac:(lia))
      as R.
    cbv zeta in R. cbn [fst].
    set (r := MathRound _) in *. clearbody r. split; intros; nia.
Qed.

Lemma resizeImageForPreview_empty_side_witness :
  snd (resizeImageForPreview 1601 1) = 0%Z.
Proof.
  apply (proj1 (resizeImageForPreview_empty_side 1601 1
                  ltac:(unfold maxImageSide; lia)
                  ltac:(unfold maxImageSide; lia)));
    unfold MAX_PREVIEW_SIZE; lia.
Defined.

(** ** [ImageResizeTool]: the preview canvas *)

Module ImageResizeFacts.
Import ImageResizeTool.

(** The shorter side of the preview, [(longer' / longer) * shorter]
    computed in binary64, for a request of [longer] by [shorter]
    pixels whose longer side is previewed as [longer']. *)
Lemma shorter_side_bounds (longer shorter : Z) :
  (0 < longer <= maxImageSide)%Z -> (0 < shorter <= longer)%Z ->
  let longer' := Qmin (inject_Z longer) 300 in
  let shorter' :=
    fl (fl (longer' / inject_Z longer) * inject_Z shorter) in
  (longer' = inject_Z (Z.min longer 300)) /\
  (0 <= shorter' /\ shorter' <= inject_Z shorter /\ shorter' <= 300.5) /\
  Qabs (shorter' * inject_Z longer - longer' * inject_Z shorter)
  <= inject_Z longer * (1 # 2199023255552).
Proof.
  intros Hl Hs longer' shorter'.
  pose proof (inject_Z_pos longer ltac:(lia)) as PL.
  pose proof (inject_Z_pos shorter ltac:(lia)) as PS.
  assert (HSL : inject_Z shorter <= inject_Z longer)
    by (rewrite <- Zle_Qle; lia).
  assert (E : longer' = inject_Z (Z.min longer 300)).
  { subst longer'. unfold Qmin, GenericMinMax.gmin.
    destruct (inject_Z longer ?= 300) eqn:C.
    - apply Qeq_alt in C. change 300 with (inject_Z 300) in C.
      rewrite inject_Z_injective in C. now rewrite C.
    - apply Qlt_alt in C. change 300 with (inject_Z 300) in C.
      rewrite <- Zlt_Qlt in C. now rewrite Z.min_l by lia.
    - apply Qgt_alt in C. change 300 with (inject_Z 300) in C.
      rewrite <- Zlt_Qlt in C. now rewrite Z.min_r by lia. }
  split; [exact E|].
  assert (Ep : fl (longer' / inject_Z longer) * inject_Z shorter
               == inject_Z shorter
                  * fl (inject_Z (Z.min longer 300) / inject_Z longer))
    by (rewrite E; ring).
  destruct (scaled_side_error shorter (Z.min longer 300) longer _
              ltac:(lia) ltac:(lia) Hl Ep)
    as (t & Et & Tb & Hv).
  fold shorter' in Hv. apply Qabs_Qle_condition in Hv.
  assert (Hm : inject_Z (Z.min longer 300) <= 300)
    by (change 300 with (inject_Z 300); rewrite <- Zle_Qle; lia).
  assert (Hm' : inject_Z (Z.min longer 300) <= inject_Z longer)
    by (rewrite <- Zle_Qle; lia).
  assert (P0 : 0 < inject_Z (Z.min longer 300))
    by (apply inject_Z_pos; lia).
  rewrite inject_Z_mult in Et.
  split; [split; [|split]|].
  - subst shorter'. apply fl_ge_double; [reflexivity|].
    apply Qmult_le_0_compat; [|lra].
    apply fl_ge_double; [reflexivity|].
    rewrite E. apply Qle_shift_div_l; lra.
  - subst shorter'. apply fl_le_double.
    + apply isDouble_int. unfold maxImageSide in *. lia.
    + assert (R1 : fl (longer' / inject_Z longer) <= 1).
      { apply fl_le_double; [reflexivity|].
        rewrite E. apply Qle_shift_div_r; lra. }
      assert (R0 : 0 <= fl (longer' / inject_Z longer)).
      { apply fl_ge_double; [reflexivity|].
        rewrite E. apply Qle_shift_div_l; lra. }
      set (r := fl (longer' / inject_Z longer)) in *. clearbody r. nra.
  - lra.
  - rewrite E. apply Qabs_Qle_condition.
    set (v := shorter') in *. clearbody v.
    set (L := inject_Z longer) in *. set (S := inject_Z shorter) in *.
    set (M := inject_Z (Z.min longer 300)) in *. clearbody L S M.
    split; nra.
Qed.

(** The preview's longer side is the requested longer side capped at
    300, exactly.  The other side is computed in binary64: it is never
    negative, never larger than the requested side, and the aspect
    ratio is kept up to [2^-41] of a pixel, not exactly: for a request
    of 348 x 145 the computed height is below the exact 125. *)
Theorem previewSize_fits :
  forall width height : Z,
    (0 < width <= maxImageSide)%Z -> (0 < height <= maxImageSide)%Z ->
    (let '(previewWidth, previewHeight) := previewSize width height in
     (0 <= previewWidth /\ previewWidth <= inject_Z width) /\
     (0 <= previewHeight /\ previewHeight <= inject_Z height) /\
     Qmax (inject_Z (Qfloor previewWidth)) (inject_Z (Qfloor previewHeight))
     == Qmin (inject_Z (Z.max width height)) 300 /\
     Qabs (previewWidth * inject_Z height - previewHeight * inject_Z width)
     <= inject_Z (Z.max width height) * (1 # 2199023255552)) /\
    (fst (previewSize 348 145) == 300 /\ snd (previewSize 348 145) < 125).
Proof.
  intros width height Hw Hh. split; [|split; vm_compute; reflexivity].
  unfold previewSize.
  destruct (Z.gtb_spec width height) as [Hgt|Hle].
  - destruct (shorter_side_bounds width height Hw ltac:(lia))
      as (E & (S0 & S1 & S2) & Ha).
    cbv zeta in E, S0, S1, S2, Ha.
    set (ph := fl (fl (Qmin (inject_Z width) 300 / inject_Z width)
                   * inject_Z height)) in *. clearbody ph.
    rewrite E in *. rewrite Z.max_l by lia.
    assert (F0 : (0 <= Qfloor ph)%Z)
      by (change 0%Z with (Qfloor 0); now apply Qfloor_resp_le).
    assert (F1 : (Qfloor ph <= Z.min width 300)%Z).
    { apply Z.min_glb.
      - apply Z.le_trans with height; [|lia].
        rewrite <- (Qfloor_Z height). now apply Qfloor_resp_le.
      - change 300%Z with (Qfloor 300.5). now apply Qfloor_resp_le. }
    split; [split; [change 0 with (inject_Z 0)|]; rewrite <- Zle_Qle; lia|].
    split; [now split|]. split.
    + rewrite Qfloor_Z.
      assert (Em : Qmin (inject_Z width) 300 == inject_Z (Z.min width 300))
        by (rewrite <- E; reflexivity).
      rewrite Em. apply Q.max_l. rewrite <- Zle_Qle. exact F1.
    + assert (Es : inject_Z (Z.min width 300) * inject_Z height
                   - ph * inject_Z width
                   == - (ph * inject_Z width
                         - inject_Z (Z.min width 300) * inject_Z height))
        by ring.
      rewrite Es, Qabs_opp. exact Ha.
  - destruct (shorter_side_bounds height width Hh ltac:(lia))
      as (E & (S0 & S1 & S2) & Ha).
    cbv zeta in E, S0, S1, S2, Ha.
    set (pw := fl (fl (Qmin (inject_Z height) 300 / inject_Z height)
                   * inject_Z width)) in *. clearbody pw.
    rewrite E in *. rewrite Z.max_r by lia.
    assert (F0 : (0 <= Qfloor pw)%Z)
      by (change 0%Z with (Qfloor 0); now apply Qfloor_resp_le).
    assert (F1 : (Qfloor pw <= Z.min height 300)%Z).
    { apply Z.min_glb.
      - apply Z.le_trans with width; [|lia].
        rewrite <- (Qfloor_Z width). now apply Qfloor_resp_le.
      - change 300%Z with (Qfloor 300.5). now apply Qfloor_resp_le. }
    split; [now split|].
    split; [split; [change 0 with (inject_Z 0)|]; rewrite <- Zle_Qle; lia|].
    split.
    + rewrite Qfloor_Z.
      assert (Em : Qmin (inject_Z height) 300 == inject_Z (Z.min height 300))
        by (rewrite <- E; reflexivity).
      rewrite Em. apply Q.max_r. rewrite <- Zle_Qle. exact F1.
    + exact Ha.
Qed.

Lemma previewSize_fits_witness :
  let '(previewWidth, previewHeight) := previewSize 1920 1080 in
  (0 <= previewWidth /\ previewWidth <= inject_Z 1920) /\
  (0 <= previewHeight /\ previewHeight <= inject_Z 1080) /\
  Qmax (inject_Z (Qfloor previewWidth)) (inject_Z (Qfloor previewHeight))
  == Qmin (inject_Z (Z.max 1920 1080)) 300 /\
  Qabs (previewWidth * inject_Z 1080 - previewHeight * inject_Z 1920)
  <= inject_Z (Z.max 1920 1080) * (1 # 2199023255552).
Proof.
  apply (previewSize_fits 1920 1080); unfold maxImageSide; lia.
Defined.

(** Whenever [updateResizePreview] draws, both inputs hold positive
    integers; for requests of at most [maxImageSide] the canvas is no
    larger than the requested size nor than 300 x 300, and its longer
    side is exactly the requested longer side capped at 300.  The
    shorter side is the integer part of a binary64 product and may
    come out one less than the exact quotient: a request of 348 x 145
    is previewed 300 x 124, and a square request of 562 x 562 is
    previewed 299 x 300. *)
Theorem updateResizePreview_canvas :
  forall (s : t) (cw ch : Z),
    updateResizePreview s = Some (cw, ch) ->
    (exists width height : Z,
        widthInput s = Some width /\ heightInput s = Some height /\
        (0 < width)%Z /\ (0 < height)%Z /\
        ((width <= maxImageSide)%Z -> (height <= maxImageSide)%Z ->
         (0 <= cw <= Z.min width 300)%Z /\
         (0 <= ch <= Z.min height 300)%Z /\
         Z.max cw ch = Z.min (Z.max width height) 300%Z)) /\
    updateResizePreview (mk (originalImage s) (Some 348%Z) (Some 145%Z))
    = Some (300, 124)%Z /\
    updateResizePreview (mk (originalImage s) (Some 562%Z) (Some 562%Z))
    = Some (299, 300)%Z.
Proof.
  intros s cw ch. unfold updateResizePreview.
  cbn [originalImage widthInput heightInput].
  destruct (originalImage s) as [o|]; [|discriminate].
  intros H. split; [|split; vm_compute; reflexivity]. revert H.
  destruct (widthInput s) as [width|]; [|discriminate].
  destruct (heightInput s) as [height|]; [|discriminate].
  destruct (Z.leb_spec width 0); [discriminate|].
  destruct (Z.leb_spec height 0); [discriminate|]. cbn [orb].
  destruct (previewSize width height) as [pw ph] eqn:E.
  intros [= <- <-]. exists width, height.
  do 4 (split; [first [reflexivity | assumption]|]).
  intros Bw Bh. revert E. unfold previewSize.
  destruct (Z.gtb_spec width height) as [Hgt|Hle]; intros [= <- <-].
  - destruct (shorter_side_bounds width height ltac:(lia) ltac:(lia))
      as (E & (S0 & S1 & S2) & _).
    cbv zeta in E, S0, S1, S2.
    set (v := fl (fl (Qmin (inject_Z width) 300 / inject_Z width)
                  * inject_Z height)) in *. clearbody v.
    rewrite E, Qfloor_Z.
    assert (F0 : (0 <= Qfloor v)%Z)
      by (change 0%Z with (Qfloor 0); now apply Qfloor_resp_le).
    assert (F1 : (Qfloor v <= height)%Z)
      by (rewrite <- (Qfloor_Z height); now apply Qfloor_resp_le).
    assert (F2 : (Qfloor v <= 300)%Z)
      by (change 300%Z with (Qfloor 300.5); now apply Qfloor_resp_le).
    lia.
  - destruct (shorter_side_bounds height width ltac:(lia) ltac:(lia))
      as (E & (S0 & S1 & S2) & _).
    cbv zeta in E, S0, S1, S2.
    set (v := fl (fl (Qmin (inject_Z height) 300 / inject_Z height)
                  * inject_Z width)) in *. clearbody v.
    rewrite E, Qfloor_Z.
    assert (F0 : (0 <= Qfloor v)%Z)
      by (change 0%Z with (Qfloor 0); now apply Qfloor_resp_le).
    assert (F1 : (Qfloor v <= width)%Z)
      by (rewrite <- (Qfloor_Z width); now apply Qfloor_resp_le).
    assert (F2 : (Qfloor v <= 300)%Z)
      by (change 300%Z with (Qfloor 300.5); now apply Qfloor_resp_le).
    lia.
Qed.

Lemma updateResizePreview_canvas_witness :
  exists width height : Z,
    Some 1000%Z = Some width /\ Some 1%Z = Some height /\
    (0 < width)%Z /\ (0 < height)%Z /\
    ((width <= maxImageSide)%Z -> (height <= maxImageSide)%Z ->
     (0 <= 300 <= Z.min width 300)%Z /\
     (0 <= 0 <= Z.min height 300)%Z /\
     Z.max 300 0 = Z.min (Z.max width height) 300%Z).
Proof.
  exact (proj1 (updateResizePreview_canvas
                  (mk (Some (4000, 3000)%Z) (Some 1000%Z) (Some 1%Z))
                  300 0 eq_refl)).
Defined.

End ImageResizeFacts.

(** ** JavaScript arrays: reading and writing by index *)

Section JsArrayFacts.
Context {A : Type}.
Implicit Types (a pre post : list (option A)) (v x y : option A) (i j : nat).

Lemma jsGet_middle pre x post : jsGet (pre ++ x :: post) (length pre) = x.
Proof. unfold jsGet. apply nth_middle. Qed.

Lemma jsGet_beyond a i : (length a <= i)%nat -> jsGet a i = None.
Proof. intros H. unfold jsGet. now apply nth_overflow. Qed.

Lemma jsGet_some_lt a i (e : A) : jsGet a i = Some e -> (i < length a)%nat.
Proof.
  intros H. destruct (Nat.lt_ge_cases i (length a)) as [Hlt|Hge];
    [assumption|]. rewrite jsGet_beyond in H by assumption. discriminate.
Qed.

Lemma jsSet_middle pre x post v :
  jsSet (pre ++ x :: post) (length pre) v = pre ++ v :: post.
Proof.
  unfold jsSet. rewrite length_app. cbn [length].
  destruct (Nat.ltb_spec (length pre) (length pre + S (length post)));
    [|lia].
  rewrite firstn_app, Nat.sub_diag, firstn_all. cbn [firstn].
  rewrite app_nil_r. f_equal. f_equal.
  rewrite skipn_app, skipn_all2 by lia.
  replace (S (length pre) - length pre)%nat with 1%nat by lia. reflexivity.
Qed.

Lemma jsSet_length_inside a i v :
  (i < length a)%nat -> length (jsSet a i v) = length a.
Proof.
  intros H. unfold jsSet. destruct (Nat.ltb_spec i (length a)); [|lia].
  rewrite length_app. cbn [length]. rewrite length_firstn, length_skipn. lia.
Qed.

Lemma jsSet_length_beyond a i v :
  (length a <= i)%nat -> length (jsSet a i v) = S i.
Proof.
  intros H. unfold jsSet. destruct (Nat.ltb_spec i (length a)); [lia|].
  rewrite !length_app, repeat_length. cbn [length]. lia.
Qed.

Lemma split_at a i :
  (i < length a)%nat ->
  exists pre x post, a = pre ++ x :: post /\ length pre = i.
Proof.
  intros H. destruct (nth_split a None H) as (pre & post & E & L).
  now exists pre, (nth i a None), post.
Qed.

Lemma split_adjacent a i :
  (S i < length a)%nat ->
  exists pre x y post, a = pre ++ x :: y :: post /\ length pre = i.
Proof.
  intros H. destruct (split_at a i ltac:(lia)) as (pre & x & post & -> & L).
  rewrite length_app in H. cbn [length] in H.
  destruct post as [|y post]; [cbn in H; lia|].
  now exists pre, x, y, post.
Qed.

Lemma jsGet_set_same a i v :
  (i < length a)%nat -> jsGet (jsSet a i v) i = v.
Proof.
  intros H. destruct (split_at a i H) as (pre & x & post & -> & <-).
  rewrite jsSet_middle. apply jsGet_middle.
Qed.

Lemma jsGet_set_other a i j v :
  (i < length a)%nat -> j <> i -> jsGet (jsSet a i v) j = jsGet a j.
Proof.
  intros H Hj. destruct (split_at a i H) as (pre & x & post & -> & <-).
  rewrite jsSet_middle. unfold jsGet.
  destruct (Nat.lt_ge_cases j (length pre)) as [Hlt|Hge].
  - now rewrite !app_nth1.
  - rewrite !app_nth2 by assumption.
    destruct (j - length pre)%nat eqn:E; [lia|reflexivity].
Qed.
End JsArrayFacts.

(** ** [ImageToPdfTool]: the image list *)

Module ImageToPdfFacts.
Import ImageToPdfTool.
Import Permutation.

Section ImageList.
Context {File Img DataURL : Type}.
Variable rotatedDataURL : Img -> Z -> Z -> DataURL.
Variable loadImage : DataURL -> Img.

Abbreviation entry := (option (@image File Img DataURL)).
Implicit Types (images pre post : list entry) (a b : entry).

Lemma moveImage_up_swap pre a b post :
  moveImage (pre ++ a :: b :: post) (S (length pre)) "up"%string
  = pre ++ b :: a :: post.
Proof.
  unfold moveImage. cbn [String.eqb Ascii.eqb Bool.eqb andb Nat.ltb Nat.leb].
  replace (S (length pre) - 1)%nat with (length pre) by lia.
  replace (pre ++ a :: b :: post) with ((pre ++ [a]) ++ b :: post)
    by now rewrite <- app_assoc.
  replace (S (length pre)) with (length (pre ++ [a]))
    by (rewrite length_app; cbn; lia).
  rewrite jsGet_middle, jsSet_middle.
  rewrite <- !app_assoc. cbn [app].
  now rewrite jsGet_middle, jsSet_middle.
Qed.

Lemma moveImage_down_swap pre a b post :
  moveImage (pre ++ a :: b :: post) (length pre) "down"%string
  = pre ++ b :: a :: post.
Proof.
  unfold moveImage. cbn [String.eqb Ascii.eqb Bool.eqb andb].
  rewrite length_app. cbn [length].
  destruct (Nat.ltb_spec (length pre)
              (length pre + S (S (length post)) - 1)); [|lia].
  cbv zeta. rewrite (jsGet_middle pre a (b :: post)).
  assert (E1 : jsGet (pre ++ a :: b :: post) (length pre + 1) = b).
  { replace (pre ++ a :: b :: post) with ((pre ++ [a]) ++ b :: post)
      by now rewrite <- app_assoc.
    replace (length pre + 1)%nat with (length (pre ++ [a]))
      by (rewrite length_app; cbn; lia).
    apply jsGet_middle. }
  rewrite E1, (jsSet_middle pre a (b :: post)).
  replace (pre ++ b :: b :: post) with ((pre ++ [b]) ++ b :: post)
    by now rewrite <- app_assoc.
  replace (length pre + 1)%nat with (length (pre ++ [b]))
    by (rewrite length_app; cbn; lia).
  rewrite jsSet_middle. now rewrite <- app_assoc.
Qed.

Lemma moveImage_other images (index : nat) (direction : String.string) :
  direction <> "up"%string -> direction <> "down"%string ->
  moveImage images index direction = images.
Proof.
  intros Hu Hd. unfold moveImage.
  apply String.eqb_neq in Hu, Hd. now rewrite Hu, Hd.
Qed.

Lemma moveImage_up_first images :
  moveImage images 0 "up"%string = images.
Proof. reflexivity. Qed.

Lemma moveImage_down_last images (index : nat) :
  (length images - 1 <= index)%nat ->
  moveImage images index "down"%string = images.
Proof.
  intros H. unfold moveImage. cbn [String.eqb Ascii.eqb Bool.eqb andb].
  destruct (Nat.ltb_spec index (length images - 1)); [lia|reflexivity].
Qed.

Lemma moveImage_permutation images (index : nat)
      (direction : String.string) :
  (index < length images)%nat ->
  Permutation (moveImage images index direction) images.
Proof.
  intros Hi.
  destruct (String.eqb_spec direction "up"%string) as [->|Hup].
  - destruct index as [|i]; [now rewrite moveImage_up_first|].
    destruct (split_adjacent images i ltac:(lia))
      as (pre & a & b & post & -> & <-).
    rewrite moveImage_up_swap. apply Permutation_app_head, perm_swap.
  - destruct (String.eqb_spec direction "down"%string) as [->|Hdown].
    + destruct (Nat.lt_ge_cases index (length images - 1)) as [Hlt|Hge].
      * destruct (split_adjacent images index ltac:(lia))
          as (pre & a & b & post & -> & <-).
        rewrite moveImage_down_swap.
        apply Permutation_app_head, perm_swap.
      * now rewrite moveImage_down_last.
    + now rewrite moveImage_other.
Qed.

(** For an index inside the list, [moveImage] only reorders: the
    result is a permutation of the list, of the same length,
    whatever the direction string.  The first entry cannot move up
    and the last cannot move down. *)
Theorem moveImage_permutes :
  forall images (index : nat) (direction : String.string),
    (index < length images)%nat ->
    Permutation (moveImage images index direction) images /\
    length (moveImage images index direction) = length images /\
    (index = 0%nat -> moveImage images index "up"%string = images) /\
    (S index = length images ->
     moveImage images index "down"%string = images).
Proof.
  intros images index direction Hi.
  pose proof (moveImage_permutation images index direction Hi) as P.
  split; [exact P|]. split; [now apply Permutation_length|]. split.
  - intros ->. apply moveImage_up_first.
  - intros Hl. apply moveImage_down_last. lia.
Qed.

(** Moving an entry up and then moving it down again from its new
    place gives the list back, and the other way round. *)
Theorem moveImage_up_down_round_trip :
  forall images (index : nat),
    (index < length images)%nat ->
    ((0 < index)%nat ->
     moveImage (moveImage images index "up"%string)
               (index - 1) "down"%string = images) /\
    ((S index < length images)%nat ->
     moveImage (moveImage images index "down"%string)
               (index + 1) "up"%string = images).
Proof.
  intros images index Hi. split; intros H.
  - destruct (split_adjacent images (index - 1) ltac:(lia))
      as (pre & a & b & post & -> & L).
    replace index with (S (length pre)) by lia.
    rewrite moveImage_up_swap.
    replace (S (length pre) - 1)%nat with (length pre) by lia.
    now rewrite moveImage_down_swap.
  - destruct (split_adjacent images index H)
      as (pre & a & b & post & -> & <-).
    rewrite moveImage_down_swap.
    replace (length pre + 1)%nat with (S (length pre)) by lia.
    now rewrite moveImage_up_swap.
Qed.

(** Called with ['up'] and an index at or past the end, [moveImage]
    lengthens the list to [index + 1] entries and leaves the entry
    before the index [undefined]. *)
Theorem moveImage_up_beyond_end_grows :
  forall images (index : nat),
    (0 < index)%nat -> (length images <= index)%nat ->
    length (moveImage images index "up"%string) = S index /\
    jsGet (moveImage images index "up"%string) (index - 1) = None.
Proof.
  intros images index Hpos Hge. unfold moveImage.
  cbn [String.eqb Ascii.eqb Bool.eqb andb].
  destruct (Nat.ltb_spec 0 index); [|lia]. cbv zeta.
  rewrite (jsGet_beyond images index Hge).
  set (grown := jsSet images index (jsGet images (index - 1))).
  assert (Lg : length grown = S index)
    by (subst grown; now apply jsSet_length_beyond).
  split.
  - rewrite jsSet_length_inside; [exact Lg | lia].
  - apply jsGet_set_same. lia.
Qed.

(** [removeImage] with an index inside the list drops exactly that
    entry: the list is one shorter, the entries before the index
    stay and the later ones move down by one.  An index at or past
    the end removes nothing. *)
Theorem removeImage_shifts :
  forall images (index : nat),
    ((index < length images)%nat ->
     S (length (removeImage images index)) = length images /\
     forall j : nat,
       jsGet (removeImage images index) j
       = if (j <? index)%nat then jsGet images j
         else jsGet images (S j)) /\
    ((length images <= index)%nat -> removeImage images index = images).
Proof.
  intros images index. unfold removeImage, jsSplice1. split.
  - intros Hi.
    destruct (split_at images index Hi) as (pre & x & post & -> & <-).
    rewrite firstn_app, Nat.sub_diag, firstn_all. cbn [firstn].
    rewrite app_nil_r, skipn_app, skipn_all2 by lia.
    replace (S (length pre) - length pre)%nat with 1%nat by lia.
    cbn [skipn app]. split.
    + rewrite !length_app. cbn [length]. lia.
    + intros j. unfold jsGet.
      destruct (Nat.ltb_spec j (length pre)) as [Hlt|Hge].
      * now rewrite !app_nth1.
      * rewrite !app_nth2 by lia.
        replace (S j - length pre)%nat with (S (j - length pre)) by lia.
        reflexivity.
  - intros Hge. rewrite firstn_all2, skipn_all2 by lia. apply app_nil_r.
Qed.

(** [rotateImage] on a defined entry swaps its width and height,
    keeps its file and touches nothing else in the list; on an
    [undefined] entry, or past the end, the read throws and the list
    is left as it was. *)
Theorem rotateImage_swaps_sides :
  forall images (index : nat),
    (forall im : @image File Img DataURL,
        jsGet images index = Some im ->
        length (fst (rotateImage rotatedDataURL loadImage images index))
        = length images /\
        (exists im',
            jsGet (fst (rotateImage rotatedDataURL loadImage images index))
                  index = Some im' /\
            width im' = height im /\ height im' = width im /\
            file im' = file im) /\
        (forall j : nat,
            j <> index ->
            jsGet (fst (rotateImage rotatedDataURL loadImage images index)) j
            = jsGet images j)) /\
    (jsGet images index = None ->
     rotateImage rotatedDataURL loadImage images index = (images, true)).
Proof.
  intros images index. unfold rotateImage. split.
  - intros im E. rewrite E. cbn [fst snd].
    pose proof (jsGet_some_lt images index im E) as Hi.
    split; [now apply jsSet_length_inside|]. split.
    + eexists. split; [now apply jsGet_set_same|]. now repeat split.
    + intros j Hj. now apply jsGet_set_other.
  - now intros ->.
Qed.

Lemma rotateImage_defined images (index : nat)
      (im : @image File Img DataURL) :
  jsGet images index = Some im ->
  rotateImage rotatedDataURL loadImage images index
  = (jsSet images index
           (Some (mkImage
                    (file im)
                    (loadImage
                       (rotatedDataURL (img im) (width im) (height im)))
                    (Some (rotatedDataURL (img im) (width im) (height im)))
                    (height im) (width im))),
     false).
Proof. intros E. unfold rotateImage. now rewrite E. Qed.

(** Two quarter turns give every entry its width and height back. *)
Theorem rotateImage_twice_restores_sides :
  forall images (index : nat) (im : @image File Img DataURL),
    jsGet images index = Some im ->
    let once := fst (rotateImage rotatedDataURL loadImage images index) in
    let twice := fst (rotateImage rotatedDataURL loadImage once index) in
    exists im'',
      jsGet twice index = Some im'' /\
      width im'' = width im /\ height im'' = height im /\
      length twice = length images.
Proof.
  intros images index im E once twice.
  pose proof (jsGet_some_lt images index im E) as Hi.
  subst twice once.
  rewrite (rotateImage_defined images index im E). cbn [fst].
  erewrite rotateImage_defined by (now apply jsGet_set_same).
  cbn [fst]. eexists. split.
  - apply jsGet_set_same. now rewrite jsSet_length_inside.
  - split; [reflexivity|]. split; [reflexivity|].
    rewrite jsSet_length_inside; rewrite jsSet_length_inside;
      first [reflexivity | assumption].
Qed.

(** [updateImageOrder] only reorders when the page still shows every
    list item once: if the indices read from the page are a
    permutation of [0 .. length - 1], the new list is a permutation
    of the old one. *)
Theorem updateImageOrder_permutes :
  forall images (domOrder : list nat),
    Permutation domOrder (seq 0 (length images)) ->
    Permutation (updateImageOrder images domOrder) images /\
    length (updateImageOrder images domOrder) = length images.
Proof.
  intros images domOrder P.
  assert (Q : Permutation (updateImageOrder images domOrder) images).
  { unfold updateImageOrder.
    rewrite (Permutation_map (jsGet images) P).
    unfold jsGet. clear P.
    assert (E : forall (d : entry) l, map (fun i => nth i l d)
                                    (seq 0 (length l)) = l).
    { intros d l. induction l as [|x l IH]; [reflexivity|].
      cbn [length seq map nth]. f_equal.
      rewrite <- seq_shift, map_map. exact IH. }
    now rewrite E. }
  split; [exact Q | now apply Permutation_length].
Qed.
End ImageList.

(** *** Placing the pictures on their pages *)

Lemma placeAll_inr {File Img DataURL : Type}
      (margin cw ch : Q) (images : list (option (@image File Img DataURL)))
      (ps : list Placement) :
  placeAll margin cw ch images = inr ps ->
  Forall2 (fun e p => exists im,
               e = Some im /\
               p = placeImage margin cw ch (width im) (height im))
          images ps.
Proof.
  revert ps. induction images as [|[im|] images IH]; intros ps; cbn.
  - intros [= <-]. constructor.
  - destruct (placeAll margin cw ch images) as [e|qs]; [discriminate|].
    intros [= <-]. constructor; [now exists im | now apply IH].
  - discriminate.
Qed.

Lemma placeAll_undefined {File Img DataURL : Type}
      (margin cw ch : Q) (images : list (option (@image File Img DataURL))) :
  In None images -> placeAll margin cw ch images = inl UndefinedEntry.
Proof.
  induction images as [|[im|] images IH]; cbn; intros H.
  - contradiction.
  - destruct H as [H|H]; [discriminate|]. now rewrite IH.
  - reflexivity.
Qed.

Lemma placeAll_defined {File Img DataURL : Type}
      (margin cw ch : Q) (images : list (option (@image File Img DataURL))) :
  ~ In None images -> exists ps, placeAll margin cw ch images = inr ps.
Proof.
  induction images as [|[im|] images IH]; cbn; intros H.
  - now exists [].
  - destruct IH as [ps ->]; [tauto|]. eexists. reflexivity.
  - tauto.
Qed.

(** What [convertToPdf] produces: an empty list is refused, then a
    missing library, then an [undefined] entry; otherwise there is one
    [addImage] call, hence one page, per image.  A margin field that
    reads 0 or does not read as a number counts as 10. *)
Theorem convertToPdf_outcome :
  forall {File Img DataURL : Type} (jsPDFdefined : bool)
         (pageWidth pageHeight : Q) (marginInput : option Z)
         (images : list (option (@image File Img DataURL))),
    let result :=
      convertToPdf jsPDFdefined pageWidth pageHeight marginInput images in
    (images = [] -> result = inl NoImages) /\
    (images <> [] -> jsPDFdefined = false -> result = inl LibraryMissing) /\
    (images <> [] -> jsPDFdefined = true -> In None images ->
     result = inl UndefinedEntry) /\
    (images <> [] -> jsPDFdefined = true -> ~ In None images ->
     exists ps, result = inr ps /\ length ps = length images) /\
    convertToPdf jsPDFdefined pageWidth pageHeight (Some 0%Z) images
    = convertToPdf jsPDFdefined pageWidth pageHeight (Some 10%Z) images /\
    convertToPdf jsPDFdefined pageWidth pageHeight None images
    = convertToPdf jsPDFdefined pageWidth pageHeight (Some 10%Z) images.
Proof.
  intros File Img DataURL j pw ph m images result. subst result.
  unfold convertToPdf.
  destruct images as [|e images].
  - repeat split; intros; first [reflexivity | congruence].
  - cbn [length Nat.eqb]. destruct j; cbn [negb].
    + repeat split; intros; try reflexivity; try discriminate.
      * now apply placeAll_undefined.
      * destruct (placeAll_defined
                    (inject_Z (marginOrDefault m))
                    (fl (pw - fl (inject_Z (marginOrDefault m) * 2)))
                    (fl (ph - fl (inject_Z (marginOrDefault m) * 2)))
                    (e :: images)) as [ps E]; [assumption|].
        exists ps. split; [exact E|].
        apply placeAll_inr in E. symmetry.
        exact (Forall2_length E).
    + repeat split; intros; try reflexivity; try discriminate.
Qed.

Lemma convertToPdf_outcome_witness :
  convertToPdf true 210 297 (Some 10%Z)
               ([] : list (option (@image unit unit unit)))
  = inl NoImages.
Proof.
  exact (proj1 (convertToPdf_outcome true 210 297 (Some 10%Z) [])
               eq_refl).
Defined.

(** *** Instances on a three-image list *)

Lemma moveImage_permutes_witness :
  let x : @image unit unit unit := mkImage tt tt None 640 480 in
  let y : @image unit unit unit := mkImage tt tt None 10 20 in
  Permutation (moveImage [Some x; Some y; Some x] 1 "up"%string)
              [Some x; Some y; Some x].
Proof.
  intros x y.
  apply (moveImage_permutes [Some x; Some y; Some x] 1 "up"%string).
  cbn. lia.
Defined.

Lemma moveImage_up_down_round_trip_witness :
  let x : @image unit unit unit := mkImage tt tt None 640 480 in
  let y : @image unit unit unit := mkImage tt tt None 10 20 in
  moveImage (moveImage [Some x; Some y] 1 "up"%string) (1 - 1) "down"%string
  = [Some x; Some y].
Proof.
  intros x y.
  apply (moveImage_up_down_round_trip [Some x; Some y] 1); cbn; lia.
Defined.

Lemma moveImage_up_beyond_end_grows_witness :
  let x : @image unit unit unit := mkImage tt tt None 640 480 in
  length (moveImage [Some x] 3 "up"%string) = 4%nat.
Proof.
  intros x.
  apply (moveImage_up_beyond_end_grows [Some x] 3); cbn; lia.
Defined.

Lemma removeImage_shifts_witness :
  let x : @image unit unit unit := mkImage tt tt None 640 480 in
  let y : @image unit unit unit := mkImage tt tt None 10 20 in
  S (length (removeImage [Some x; Some y] 0)) = 2%nat.
Proof.
  intros x y.
  apply (proj1 (removeImage_shifts [Some x; Some y] 0)). cbn. lia.
Defined.

Lemma rotateImage_swaps_sides_witness :
  let x : @image unit unit unit := mkImage tt tt None 640 480 in
  length (fst (rotateImage (fun _ _ _ => tt) (fun _ => tt) [Some x] 0))
  = 1%nat.
Proof.
  intros x.
  apply (proj1 (rotateImage_swaps_sides
                  (fun _ _ _ => tt) (fun _ => tt) [Some x] 0) x).
  reflexivity.
Defined.

Lemma rotateImage_twice_restores_sides_witness :
  let x : @image unit unit unit := mkImage tt tt None 640 480 in
  let once := fst (rotateImage (fun _ _ _ => tt) (fun _ => tt) [Some x] 0) in
  let twice := fst (rotateImage (fun _ _ _ => tt) (fun _ => tt) once 0) in
  exists im'',
    jsGet twice 0 = Some im'' /\
    width im'' = 640%Z /\ height im'' = 480%Z /\
    length twice = 1%nat.
Proof.
  intros x.
  exact (rotateImage_twice_restores_sides
           (fun _ _ _ => tt) (fun _ => tt) [Some x] 0 x eq_refl).
Defined.

Lemma updateImageOrder_permutes_witness :
  let x : @image unit unit unit := mkImage tt tt None 640 480 in
  let y : @image unit unit unit := mkImage tt tt None 10 20 in
  Permutation (updateImageOrder [Some x; Some y] [1; 0]%nat)
              [Some x; Some y].
Proof.
  intros x y.
  apply (updateImageOrder_permutes [Some x; Some y] [1; 0]%nat).
  apply perm_swap.
Defined.
End ImageToPdfFacts.
